(** * mauve-viewer: alignment model, reorientation, track reorder and cursor mapping

    A shallow embedding of [src/cursor.js] (class [Cursor]) and of the
    [MauveViewer] class that follows it in the same file.

    Conventions of the embedding.
    - [this.data] is an array of LCBs (alignment groups), each an array of
      region objects.  It is parsed JSON, so it is tree shaped: every region
      object occurs once.  The in-place updates of [forEach] are therefore
      written as list traversals that rebuild the list.
    - Track indices, region ids and sequence coordinates are integers ([Z]).
      Strands are JavaScript strings and stay strings here: the code compares
      them with ['+'] and ['-'] only.
    - Surface (pixel) positions are JavaScript numbers.  They are modelled as
      exact rationals ([Q]); nothing proved below depends on rounding error.
    - A JavaScript [TypeError] (indexing [undefined]) is [None]. *)

From Stdlib Require Import ZArith QArith Qround Lia.
From stdpp Require Import gmap strings list fin_maps sorting.

Local Open Scope string_scope.
Local Open Scope list_scope.
Local Open Scope Z_scope.

(** ** Data model *)

(** A region object.  [id_] and [groupID] are written by [getGenomeRegions],
    [hidden] is either [true] or absent ([delete region.hidden]). *)
Record Region : Type := mkRegion {
  name : string;
  start : Z;
  end_ : Z;
  strand : string;
  lcb_idx : Z;
  id_ : Z;
  groupID : Z;
  hidden : bool
}.

Definition set_strand (s : string) (r : Region) : Region :=
  mkRegion (name r) (start r) (end_ r) s (lcb_idx r) (id_ r) (groupID r) (hidden r).

Definition set_lcb_idx (i : Z) (r : Region) : Region :=
  mkRegion (name r) (start r) (end_ r) (strand r) i (id_ r) (groupID r) (hidden r).

Definition set_id (i : Z) (r : Region) : Region :=
  mkRegion (name r) (start r) (end_ r) (strand r) (lcb_idx r) i (groupID r) (hidden r).

Definition set_groupID (g : Z) (r : Region) : Region :=
  mkRegion (name r) (start r) (end_ r) (strand r) (lcb_idx r) (id_ r) g (hidden r).

Definition set_hidden (h : bool) (r : Region) : Region :=
  mkRegion (name r) (start r) (end_ r) (strand r) (lcb_idx r) (id_ r) (groupID r) h.

Global Instance Region_eq_dec : EqDecision Region.
Proof. solve_decision. Defined.

(** An LCB is the array of its regions, [this.data] the array of LCBs. *)
Abbreviation LCB := (list Region).

(** The viewer.  [genomeRegions] is the per-track table built at load time;
    its arrays hold references to the region objects of [data], written here
    as the regions' ids. *)
Record MauveViewer : Type := mkViewer {
  data : list LCB;
  genomeRegions : gmap Z (list Z);
  trackCount : Z;
  hiddenTracks : list Z
}.

(** ** [MauveViewer.setReference] *)

(** First [lcb.forEach]: every region of track [id] whose strand is not ['+']
    is made ['+']; [flipped] remembers whether that happened. *)
Fixpoint make_positive (id : Z) (lcb : LCB) (flipped : bool) : LCB * bool :=
  match lcb with
  | [] => ([], flipped)
  | region :: rest =>
      if bool_decide (lcb_idx region ≠ id) then
        let '(rest', fl) := make_positive id rest flipped in (region :: rest', fl)
      else if bool_decide (strand region ≠ "+") then
        let '(rest', fl) := make_positive id rest true in
        (set_strand "+" region :: rest', fl)
      else
        let '(rest', fl) := make_positive id rest flipped in (region :: rest', fl)
  end.

(** [region.strand === '-' ? '+' : '-'] *)
Definition toggle (s : string) : string :=
  if bool_decide (s = "-") then "+" else "-".

(** Second [lcb.forEach]: every region that is not of track [id] is toggled. *)
Definition flip_others (id : Z) (lcb : LCB) : LCB :=
  map (fun region =>
         if bool_decide (lcb_idx region = id) then region
         else set_strand (toggle (strand region)) region) lcb.

(** The body of [this.data.forEach(lcb => ...)]. *)
Definition setReference_lcb (id : Z) (lcb : LCB) : LCB :=
  let '(lcb1, flipped) := make_positive id lcb false in
  if negb flipped then lcb1 else flip_others id lcb1.

Definition setReference_data (id : Z) (d : list LCB) : list LCB :=
  map (setReference_lcb id) d.

(** [setReference(id, noRerender)]; the re-render only rebuilds the drawing. *)
Definition setReference (id : Z) (v : MauveViewer) : MauveViewer :=
  mkViewer (setReference_data id (data v)) (genomeRegions v) (trackCount v)
           (hiddenTracks v).

(** What the first pass does to one region. *)
Definition positive (id : Z) (r : Region) : Region :=
  if bool_decide (lcb_idx r = id) && bool_decide (strand r ≠ "+")
  then set_strand "+" r else r.

(** What a flipped group looks like, in the words of the specification: the
    reference member becomes ['+'], every other member is toggled. *)
Definition reorient (id : Z) (r : Region) : Region :=
  if bool_decide (lcb_idx r = id) then set_strand "+" r
  else set_strand (toggle (strand r)) r.

(** The reference track has a member in [lcb] whose strand is not ['+']. *)
Definition ref_not_plus (id : Z) (lcb : LCB) : Prop :=
  ∃ r, r ∈ lcb ∧ lcb_idx r = id ∧ strand r ≠ "+".

Definition ref_not_plusb (id : Z) (lcb : LCB) : bool :=
  existsb (fun r => bool_decide (lcb_idx r = id) && bool_decide (strand r ≠ "+")) lcb.


(** ** [MauveViewer.swapTrack] and [MauveViewer.swapBackbones] *)

(** [obj[k] = v] where [v] was read from the same object: reading a missing
    key gives [undefined], and a key holding [undefined] reads like a missing
    one, so writing [None] removes the key. *)
Definition obj_write {V} (k : Z) (v : option V) (o : gmap Z V) : gmap Z V :=
  partial_alter (fun _ => v) k o.

Definition swapTrack_table (id newID : Z) (regions : gmap Z (list Z)) : gmap Z (list Z) :=
  let swapTrack := regions !! newID in
  let regions := obj_write newID (regions !! id) regions in
  obj_write id swapTrack regions.

(** The exchange of two track indices. *)
Definition swap_idx (oldID newID i : Z) : Z :=
  if bool_decide (i = oldID) then newID
  else if bool_decide (i = newID) then oldID
  else i.

(** The inner [lcb.forEach] of [swapBackbones]. *)
Definition relabel_region (oldID newID : Z) (region : Region) : Region :=
  if bool_decide (lcb_idx region = oldID) then set_lcb_idx newID region
  else if bool_decide (lcb_idx region = newID) then set_lcb_idx oldID region
  else region.

Definition relabel (oldID newID : Z) (lcb : LCB) : LCB :=
  map (relabel_region oldID newID) lcb.

(** [Array.prototype.sort(compare)].  The sort is stable (ECMAScript 2019);
    a stable sort is determined by its comparator, and is written here as an
    insertion sort: an element is put in front of the first element that
    does not compare below it. *)
Fixpoint sort_insert {A} (compare : A → A → Z) (x : A) (l : list A) : list A :=
  match l with
  | [] => [x]
  | y :: l' =>
      if bool_decide (compare x y ≤ 0) then x :: y :: l'
      else y :: sort_insert compare x l'
  end.

Fixpoint array_sort {A} (compare : A → A → Z) (l : list A) : list A :=
  match l with
  | [] => []
  | x :: l' => sort_insert compare x (array_sort compare l')
  end.

(** A comparator that orders by a numeric key, [(a, b) => key(a) - key(b)]. *)
Definition key_compare {A} (key : A → Z) (a b : A) : Z := key a - key b.

(** [(a, b) => a.lcb_idx - b.lcb_idx] *)
Definition by_lcb_idx : Region → Region → Z := key_compare lcb_idx.

Definition swapBackbones_lcb (oldID newID : Z) (lcb : LCB) : LCB :=
  array_sort by_lcb_idx (relabel oldID newID lcb).

Definition swapBackbones_data (oldID newID : Z) (d : list LCB) : list LCB :=
  map (swapBackbones_lcb oldID newID) d.

Definition swapTrack (id newID : Z) (v : MauveViewer) : MauveViewer :=
  mkViewer (data v) (swapTrack_table id newID (genomeRegions v)) (trackCount v)
           (hiddenTracks v).

Definition swapBackbones (oldID newID : Z) (v : MauveViewer) : MauveViewer :=
  mkViewer (swapBackbones_data oldID newID (data v)) (genomeRegions v)
           (trackCount v) (hiddenTracks v).

(** [this.swapTrack(id, swapID); this.swapBackbones(id, swapID)] *)
Definition swap (id swapID : Z) (v : MauveViewer) : MauveViewer :=
  swapBackbones id swapID (swapTrack id swapID v).

Definition moveTrackUp (id : Z) (v : MauveViewer) : MauveViewer :=
  let swapID := id - 1 in
  if bool_decide (swapID < 1) then v else swap id swapID v.

Definition moveTrackDown (id : Z) (v : MauveViewer) : MauveViewer :=
  let swapID := id + 1 in
  if bool_decide (swapID > trackCount v) then v else swap id swapID v.

(** ** [MauveViewer.hideTrack] and [MauveViewer.showTrack] *)

(** [Array.prototype.indexOf]: the first index holding [x], or [-1]. *)
Fixpoint indexOf_from (x : Z) (l : list Z) (i : Z) : Z :=
  match l with
  | [] => -1
  | y :: l' => if bool_decide (y = x) then i else indexOf_from x l' (i + 1)
  end.

Definition indexOf (x : Z) (l : list Z) : Z := indexOf_from x l 0.

(** [Array.prototype.splice(start)] with its single argument: everything
    from [start] on is removed; a negative [start] counts from the end.
    The array that remains is returned. *)
Definition splice (start : Z) (l : list Z) : list Z :=
  let len := Z.of_nat (length l) in
  let actualStart :=
    if bool_decide (start < 0) then Z.max (len + start) 0 else Z.min start len in
  take (Z.to_nat actualStart) l.

Definition mark_hidden (id : Z) (region : Region) : Region :=
  if bool_decide (lcb_idx region = id) then set_hidden true region else region.

Definition clear_hidden (id : Z) (region : Region) : Region :=
  if bool_decide (lcb_idx region = id) then set_hidden false region else region.

Definition hideTrack (id : Z) (v : MauveViewer) : MauveViewer :=
  mkViewer (map (map (mark_hidden id)) (data v)) (genomeRegions v) (trackCount v)
           (hiddenTracks v ++ [id]).

Definition showTrack (id : Z) (v : MauveViewer) : MauveViewer :=
  mkViewer (map (map (clear_hidden id)) (data v)) (genomeRegions v) (trackCount v)
           (splice (indexOf id (hiddenTracks v)) (hiddenTracks v)).

(** [render] reads the list with [this.hiddenTracks.includes(id)]. *)
Definition isHidden (id : Z) (v : MauveViewer) : bool :=
  bool_decide (id ∈ hiddenTracks v).

(** ** [MauveViewer.getGenomeRegions] and [MauveViewer.init] *)

Definition table_push (index regionID : Z) (regions : gmap Z (list Z)) : gmap Z (list Z) :=
  match regions !! index with
  | Some l => <[index := l ++ [regionID]]> regions
  | None => <[index := [regionID]]> regions
  end.

Fixpoint load_lcb (groupID : Z) (lcb : LCB) (regionID : Z) (regions : gmap Z (list Z))
  : LCB * Z * gmap Z (list Z) :=
  match lcb with
  | [] => ([], regionID, regions)
  | region :: rest =>
      let regionID := regionID + 1 in
      let region := set_groupID groupID (set_id regionID region) in
      let regions := table_push (lcb_idx region) regionID regions in
      let '(rest', n, regions') := load_lcb groupID rest regionID regions in
      (region :: rest', n, regions')
  end.

Fixpoint load_lcbs (groupID : Z) (lcbs : list LCB) (regionID : Z) (regions : gmap Z (list Z))
  : list LCB * Z * gmap Z (list Z) :=
  match lcbs with
  | [] => ([], regionID, regions)
  | lcb :: rest =>
      let '(lcb', regionID', regions') := load_lcb groupID lcb regionID regions in
      let '(rest', n, regions'') := load_lcbs (groupID + 1) rest regionID' regions' in
      (lcb' :: rest', n, regions'')
  end.

Definition getGenomeRegions (lcbs : list LCB) : list LCB * Z * gmap Z (list Z) :=
  load_lcbs 0 lcbs 0 ∅.

(** [constructor] and [init]: load, count the tracks, make track 1 the
    reference. *)
Definition init (d : list LCB) : MauveViewer :=
  let '(d', _, regions) := getGenomeRegions d in
  setReference 1 (mkViewer d' regions (Z.of_nat (size regions)) []).

(** ** [Cursor] *)

(** A d3 scale as the cursor uses it: [x(v)] is [scale_at x v], [x.invert(v)]
    is [invert x v].  The scales come from [Track.getZoomScale], which is
    not part of the source at hand; a track is represented by the scale this
    call returns, and nothing is assumed about it. *)
Record Scale : Type := mkScale {
  scale_at : Q → Q;
  invert : Q → Q
}.

(** [Math.round]: the nearest integer, halves go up. *)
Definition Math_round (q : Q) : Z := Qfloor (q + (1 # 2)).

(** The numeric attributes of a drawn element, by attribute name. *)
Abbreviation Attrs := (gmap string Q).

Definition attr (a : string) (v : Q) (e : Attrs) : Attrs := <[a := v]> e.

(** What [document.elementFromPoint] returns, with the datum d3 bound to it. *)
Record Element : Type := mkElement {
  tagName : string;
  classList : list string;
  datum : option Region
}.

Definition contains (cls : string) (e : Element) : bool :=
  bool_decide (cls ∈ classList e).

(** The cursor object.  [group_shapes g] is the data of the elements that
    [svg.selectAll('.group-' + g)] selects, in document order; they are
    drawn by the [Track] class, which is not part of the source at hand, so
    the selection is a parameter of the cursor.  [hoverBoxes] is keyed by the
    [i] of the class [hover-box-i].  [highlighted] holds the groups whose
    shapes carry the highlight stroke. *)
Record Cursor : Type := mkCursor {
  tracks : list Scale;
  group_shapes : Z → list Region;
  hoverXPos : option Q;
  hoverTrackID : option Z;
  hoverLCBID : option Z;
  scales : gmap Z Scale;
  relativeXs : gmap Z Q;
  hoverLines : list Attrs;
  hoverBoxes : gmap Z Attrs;
  highlighted : gset Z;
  lengthNode : option Z;
  ntPosNode : option Z
}.

Definition set_hoverXPos (p : Q) (c : Cursor) : Cursor :=
  mkCursor (tracks c) (group_shapes c) (Some p) (hoverTrackID c) (hoverLCBID c)
    (scales c) (relativeXs c) (hoverLines c) (hoverBoxes c) (highlighted c)
    (lengthNode c) (ntPosNode c).

Definition set_hoverTrackID (t : Z) (c : Cursor) : Cursor :=
  mkCursor (tracks c) (group_shapes c) (hoverXPos c) (Some t) (hoverLCBID c)
    (scales c) (relativeXs c) (hoverLines c) (hoverBoxes c) (highlighted c)
    (lengthNode c) (ntPosNode c).

Definition set_hoverLCBID (g : Z) (c : Cursor) : Cursor :=
  mkCursor (tracks c) (group_shapes c) (hoverXPos c) (hoverTrackID c) (Some g)
    (scales c) (relativeXs c) (hoverLines c) (hoverBoxes c) (highlighted c)
    (lengthNode c) (ntPosNode c).

Definition set_scales (s : gmap Z Scale) (c : Cursor) : Cursor :=
  mkCursor (tracks c) (group_shapes c) (hoverXPos c) (hoverTrackID c) (hoverLCBID c)
    s (relativeXs c) (hoverLines c) (hoverBoxes c) (highlighted c)
    (lengthNode c) (ntPosNode c).

Definition set_relativeXs (r : gmap Z Q) (c : Cursor) : Cursor :=
  mkCursor (tracks c) (group_shapes c) (hoverXPos c) (hoverTrackID c) (hoverLCBID c)
    (scales c) r (hoverLines c) (hoverBoxes c) (highlighted c)
    (lengthNode c) (ntPosNode c).

Definition set_hoverLines (l : list Attrs) (c : Cursor) : Cursor :=
  mkCursor (tracks c) (group_shapes c) (hoverXPos c) (hoverTrackID c) (hoverLCBID c)
    (scales c) (relativeXs c) l (hoverBoxes c) (highlighted c)
    (lengthNode c) (ntPosNode c).

Definition set_hoverBoxes (b : gmap Z Attrs) (c : Cursor) : Cursor :=
  mkCursor (tracks c) (group_shapes c) (hoverXPos c) (hoverTrackID c) (hoverLCBID c)
    (scales c) (relativeXs c) (hoverLines c) b (highlighted c)
    (lengthNode c) (ntPosNode c).

Definition set_highlighted (h : gset Z) (c : Cursor) : Cursor :=
  mkCursor (tracks c) (group_shapes c) (hoverXPos c) (hoverTrackID c) (hoverLCBID c)
    (scales c) (relativeXs c) (hoverLines c) (hoverBoxes c) h
    (lengthNode c) (ntPosNode c).

Definition set_info (len pos : option Z) (c : Cursor) : Cursor :=
  mkCursor (tracks c) (group_shapes c) (hoverXPos c) (hoverTrackID c) (hoverLCBID c)
    (scales c) (relativeXs c) (hoverLines c) (hoverBoxes c) (highlighted c)
    len pos.

(** [a[i]] on an array: [undefined] outside of it. *)
Definition array_get {A} (l : list A) (i : Z) : option A :=
  if bool_decide (0 ≤ i) then l !! Z.to_nat i else None.

(** [lines[i].attr(...)]: a [TypeError] when [lines[i]] is [undefined]. *)
Definition line_attr (i : Z) (f : Attrs → Attrs) (c : Cursor) : option Cursor :=
  line ← array_get (hoverLines c) i;
  Some (set_hoverLines (<[Z.to_nat i := f line]> (hoverLines c)) c).

(** [svg.select('.hover-box-' + i).attr(...)]: an empty selection when there
    is no such box, and then nothing happens. *)
Definition box_attr (i : Z) (f : Attrs → Attrs) (c : Cursor) : Cursor :=
  set_hoverBoxes (alter f i (hoverBoxes c)) c.

(** [render]: one line and one box per track, parked left of the drawing
    (a new line gets the attributes [x1] and [x], its [x2] is first set by a
    hover).  The vertical attributes depend on layout constants only and
    are left out. *)
Definition new_line : Attrs := attr "x" (-11) (attr "x1" (-11) ∅).

Definition new_box : Attrs := attr "height" 60 (attr "width" 10 (attr "x" (-11) ∅)).

Definition new_Cursor (trks : list Scale) (shapes : Z → list Region) (count : Z) : Cursor :=
  mkCursor trks shapes None None None ∅ ∅
    (replicate (Z.to_nat count) new_line)
    (list_to_map ((fun i => (i, new_box)) <$> seqZ 1 count))
    ∅ None None.

(** The payload handed to [onclick]. *)
Record Click : Type := mkClick {
  click_trackID : option Z;
  click_lcbID : option Z;
  click_xPos : option Q;
  click_relativeXs : gmap Z Q;
  click_scales : gmap Z Scale
}.

Definition click (c : Cursor) : Click :=
  mkClick (hoverTrackID c) (hoverLCBID c) (hoverXPos c) (relativeXs c) (scales c).

(** [mouseover] *)
Definition mouseover (c : Cursor) : Cursor :=
  set_hoverBoxes (attr "opacity" 1 <$> hoverBoxes c)
    (set_hoverLines (attr "opacity" 1 <$> hoverLines c) c).

(** The branch of [mousemove] that hides the cursors. *)
Definition hide_cursors (c : Cursor) : Cursor :=
  set_hoverLines (attr "opacity" 0 <$> hoverLines c)
    (set_hoverBoxes (attr "opacity" 0 <$> hoverBoxes c) c).

(** [line.attr('x1', p).attr('x2', p)] and [box.attr('x', p - 5)] *)
Definition move_line (p : Q) (l : Attrs) : Attrs := attr "x2" p (attr "x1" p l).

Definition move_box (p : Q) (b : Attrs) : Attrs := attr "x" (p - 5)%Q b.

(** The position on another region of the group. *)
Definition nextXPos_of (hoverStrand : string) (relXPos : Q) (x : Scale) (d : Region) : Q :=
  if bool_decide (hoverStrand ≠ strand d) then
    (scale_at x (inject_Z (end_ d)) - relXPos)%Q
  else
    (scale_at x (inject_Z (start d)) + relXPos)%Q.

(** The callback of [svg.selectAll('.group-' + groupID).each(...)] that
    places the cursors of the other tracks. *)
Definition place_other (trackID : Z) (hoverStrand : string) (xPos relXPos : Q)
    (d : Region) (c : Cursor) : option Cursor :=
  if bool_decide (lcb_idx d = trackID) then Some c
  else
    x ← array_get (tracks c) (lcb_idx d - 1);
    let nextXPos := nextXPos_of hoverStrand relXPos x d in
    let diff := (xPos - nextXPos + 1)%Q in
    let c := set_relativeXs (<[lcb_idx d - 1 := diff]> (relativeXs c)) c in
    let c := set_scales (<[lcb_idx d - 1 := x]> (scales c)) c in
    c ← line_attr (lcb_idx d - 1) (move_line nextXPos) c;
    Some (box_attr (lcb_idx d) (move_box nextXPos) c).

Fixpoint each (f : Region → Cursor → option Cursor) (sel : list Region) (c : Cursor)
  : option Cursor :=
  match sel with
  | [] => Some c
  | d :: rest => c ← f d c; each f rest c
  end.

(** [mousemove], given the element under the pointer and [d3.mouse(this)[0]].
    A handler that throws leaves the cursor partly updated; that state is
    not kept here, the result is [None]. *)
Definition mousemove (ele : option Element) (mouseX : Q) (c : Cursor) : option Cursor :=
  match ele with
  | None => Some c
  | Some ele =>
      if bool_decide (tagName ele ≠ "rect") || negb (contains "region" ele) then
        if contains "cursor-line" ele || contains "hover-box" ele then Some c
        else Some (hide_cursors c)
      else
        d ← datum ele;
        let xPos := mouseX in
        let trackID := lcb_idx d in
        let c := set_hoverTrackID trackID c in
        let hoverStrand := strand d in
        x ← array_get (tracks c) (trackID - 1);
        let xPos := scale_at x (inject_Z (Math_round (invert x xPos))) in
        let c := set_hoverXPos xPos c in
        let c := set_relativeXs (<[trackID - 1 := 0%Q]> (relativeXs c)) c in
        let c := set_scales (<[trackID - 1 := x]> (scales c)) c in
        let relXPos := (xPos - scale_at x (inject_Z (start d)))%Q in
        c ← line_attr (trackID - 1) (move_line xPos) c;
        let c := box_attr trackID (move_box xPos) c in
        let groupID := groupID d in
        let c := set_hoverLCBID groupID c in
        c ← each (place_other trackID hoverStrand xPos relXPos) (group_shapes c groupID) c;
        let c := set_highlighted ({[groupID]} ∪ highlighted c) c in
        Some (set_info (Some (end_ d - start d + 1))
                       (Some (Math_round (invert x xPos))) c)
  end.

(** [mouseout]; [onLine] says that the pointer moved onto a cursor line. *)
Definition mouseout (onLine : bool) (c : Cursor) : Cursor :=
  if onLine then c
  else
    let c := set_hoverLines
               ((fun l => attr "x2" (-2) (attr "x1" (-2) (attr "opacity" 0 l))) <$> hoverLines c) c in
    let c := set_hoverBoxes
               ((fun b => attr "x" (-11) (attr "opacity" 0 b)) <$> hoverBoxes c) c in
    set_info None None (set_highlighted ∅ c).

(** What the cursor holds for track [t]: its entries in [relativeXs] and
    [scales], its cursor line and its hover box. *)
Definition marks (c : Cursor) (t : Z)
  : option Q * option Scale * option Attrs * option Attrs :=
  (relativeXs c !! (t - 1), scales c !! (t - 1),
   array_get (hoverLines c) (t - 1), hoverBoxes c !! t).

(** Track [t] has a scale and a cursor line, so that the handler can index
    [tracks] and [lines] with it. *)
Definition on_track (c : Cursor) (t : Z) : Prop :=
  is_Some (array_get (tracks c) (t - 1))
  ∧ is_Some (array_get (hoverLines c) (t - 1)).

Global Instance on_track_dec c t : Decision (on_track c t).
Proof. unfold on_track. apply _. Defined.

(** An element is the rect of a region for [mousemove]. *)
Definition is_region (ele : Element) : Prop :=
  tagName ele = "rect" ∧ "region" ∈ classList ele.

(** Every cursor line and every hover box is transparent. *)
Definition cursors_hidden (c : Cursor) : Prop :=
  Forall (fun l : Attrs => l !! "opacity" = Some 0%Q) (hoverLines c)
  ∧ map_Forall (fun (_ : Z) (b : Attrs) => b !! "opacity" = Some 0%Q) (hoverBoxes c).

(** A [rect] of class [region] that carries the region [d]. *)
Definition region_rect (d : Region) : Element :=
  mkElement "rect" ["region"] (Some d).

(** The snapped position of the pointer and its offset from the start of
    the hovered region, both on the scale [x] of the hovered track. *)
Definition snapped (x : Scale) (mouseX : Q) : Q :=
  scale_at x (inject_Z (Math_round (invert x mouseX))).

Definition relOffset (x : Scale) (d : Region) (mouseX : Q) : Q :=
  (snapped x mouseX - scale_at x (inject_Z (start d)))%Q.

(** The marks of a region's track once [place_other] has visited the
    region: [line] and [box] are the line and the box as they were. *)
Definition placed (hoverStrand : string) (xPos relXPos : Q) (x : Scale)
    (d : Region) (line box : option Attrs)
  : option Q * option Scale * option Attrs * option Attrs :=
  let nextXPos := nextXPos_of hoverStrand relXPos x d in
  (Some (xPos - nextXPos + 1)%Q, Some x,
   move_line nextXPos <$> line, move_box nextXPos <$> box).

(** ** The mutating operations as a whole *)

Inductive Op : Type :=
  | SetReference (id : Z)
  | MoveTrackUp (id : Z)
  | MoveTrackDown (id : Z)
  | Swap (id swapID : Z)
  | HideTrack (id : Z)
  | ShowTrack (id : Z).

Definition apply_op (op : Op) (v : MauveViewer) : MauveViewer :=
  match op with
  | SetReference id => setReference id v
  | MoveTrackUp id => moveTrackUp id v
  | MoveTrackDown id => moveTrackDown id v
  | Swap id swapID => swap id swapID v
  | HideTrack id => hideTrack id v
  | ShowTrack id => showTrack id v
  end.

(** The operations of a session, applied from left to right. *)
Definition run (ops : list Op) (v : MauveViewer) : MauveViewer :=
  fold_left (fun v op => apply_op op v) ops v.

(** What identifies a region and places it in a group: everything the
    operations never write. *)
Definition frame (r : Region) : string * Z * Z * Z * Z :=
  (name r, start r, end_ r, id_ r, groupID r).

(** The groups of [d'] are those of [d], one by one, each with the same
    regions up to their order inside the group. *)
Definition same_groups (d d' : list LCB) : Prop :=
  Forall2 (fun g g' => frame <$> g ≡ₚ frame <$> g') d d'.

(** ** Invariants of the data model (specification, section 3) *)

(** Strands are ['+'] or ['-']. *)
Definition plus_minus (lcb : LCB) : Prop :=
  Forall (fun r => strand r = "+" ∨ strand r = "-") lcb.

(** A track has at most one region in a group. *)
Definition one_per_track (lcb : LCB) : Prop := NoDup (lcb_idx <$> lcb).

Definition well_formed (d : list LCB) : Prop :=
  Forall (fun lcb => plus_minus lcb ∧ one_per_track lcb) d.

Global Instance well_formed_dec d : Decision (well_formed d).
Proof. unfold well_formed, plus_minus, one_per_track. apply _. Defined.

Definition has_track (t : Z) (lcb : LCB) : bool :=
  bool_decide (t ∈ lcb_idx <$> lcb).

(** The regions of a group are in ascending order of their track index. *)
Definition ascending (lcb : LCB) : Prop :=
  StronglySorted (fun r1 r2 => lcb_idx r1 ≤ lcb_idx r2) lcb.

Global Instance ascending_dec lcb : Decision (ascending lcb).
Proof. unfold ascending. apply _. Defined.

(** ** A small alignment used in the examples

    Three genomes; the first block covers all of them, the second one only
    genomes 2 and 3, with genome 2 on the reverse strand. *)
Definition raw (nm : string) (s e : Z) (str : string) (t : Z) : Region :=
  mkRegion nm s e str t 0 0 false.

Definition example_data : list LCB :=
  [ [ raw "g1" 100 200 "+" 1; raw "g2" 500 650 "-" 2; raw "g3" 40 140 "+" 3 ];
    [ raw "g2" 700 800 "-" 2; raw "g3" 300 400 "+" 3 ] ].

Definition example_viewer : MauveViewer := init example_data.

(** A drawing of an alignment on which every region has a rect, and the
    rect of a region carries the class of its group. *)
Definition shapes_of (d : list LCB) (g : Z) : list Region :=
  filter (fun r => groupID r = g) (concat d).

(** A scale with [k] pixels per base. *)
Definition zoomed (k : Q) : Scale :=
  mkScale (fun v => (k * v)%Q) (fun p => (p / k)%Q).

(** The cursor of the example: genomes 1 and 2 at one pixel per base,
    genome 3 at two. *)
Definition example_cursor : Cursor :=
  new_Cursor [zoomed 1; zoomed 1; zoomed 2] (shapes_of (data example_viewer)) 3.

(** The region of genome 1 in the first block, as loaded. *)
Definition example_region : Region := mkRegion "g1" 100 200 "+" 1 1 0 false.

(** Something that is not a region: the background of the drawing. *)
Definition background : Element := mkElement "svg" [] None.

(** An alignment whose only block lists genome 2 before genome 1. *)
Definition unordered_data : list LCB :=
  [ [ raw "g2" 500 600 "+" 2; raw "g1" 100 200 "+" 1 ] ].

Definition unordered_viewer : MauveViewer := init unordered_data.

(** ** [MauveViewer.getSharedLCBs] and the axis length of [render] *)

(** [Math.max(...xs)]; without arguments it is [-Infinity], written [None]. *)
Definition Math_max (xs : list Z) : option Z :=
  match xs with
  | [] => None
  | x :: xs' => Some (foldl Z.max x xs')
  end.

(** [getSharedLCBs]: the groups with as many rows as the largest group.  No
    length equals [-Infinity]. *)
Definition getSharedLCBs (d : list LCB) : list LCB :=
  let maxRows := Math_max ((fun lcb => Z.of_nat (length lcb)) <$> d) in
  filter (fun lcbs => Some (Z.of_nat (length lcbs)) = maxRows) d.

(** Integers as doubles.  An integer below [2^53] in absolute value is a
    double, and the sum of two doubles is their exact sum rounded to 53
    significant bits, a half going to the neighbour with the even
    significand.  [round_double] is that rounding on integers; the sums
    taken here stay below the largest double. *)
Definition two53 : Z := 9007199254740992.

Definition round_double (n : Z) : Z :=
  let a := Z.abs n in
  if a <? two53 then n
  else
    let e := Z.log2 a - 52 in
    let q := Z.shiftr a e in
    let r := a - Z.shiftl q e in
    let half := Z.shiftl 1 (e - 1) in
    let q' := if (half <? r) || ((r =? half) && Z.odd q) then q + 1 else q in
    Z.sgn n * Z.shiftl q' e.

(** The first lines of [render]: the highest [end] of all regions, and the
    length of the axis, [endMax + 100], a sum of doubles.
    [-Infinity + 100] is [-Infinity]. *)
Definition endMax (d : list LCB) : option Z := Math_max (end_ <$> concat d).

Definition xLength (d : list LCB) : option Z :=
  (fun m => round_double (m + 100)) <$> endMax d.

(** The ends of all regions are small enough for [end + 100] to be exact. *)
Definition ends_exact (d : list LCB) : Prop :=
  Forall (fun r => Z.abs (end_ r) + 100 < two53) (concat d).

Global Instance ends_exact_dec d : Decision (ends_exact d).
Proof. unfold ends_exact. apply _. Defined.

(** ** The events of the cursor *)

Inductive Event : Type :=
  | MouseOver
  | MouseMove (target : option Element) (mouseX : Q)
  | MouseOut (onLine : bool).

Definition handle (e : Event) (c : Cursor) : option Cursor :=
  match e with
  | MouseOver => Some (mouseover c)
  | MouseMove target mouseX => mousemove target mouseX c
  | MouseOut onLine => Some (mouseout onLine c)
  end.

(** The events of a session, one after the other, as long as none throws. *)
Fixpoint handle_all (es : list Event) (c : Cursor) : option Cursor :=
  match es with
  | [] => Some c
  | e :: rest => c ← handle e c; handle_all rest c
  end.

(** ** The track loop of [render] *)

(** Layout constants of the module of constants. *)
Definition trackOffset : Z := 140.

Definition marginTop : Z := 20.

(** What [render] hands to [new Track] for one track: the position, the id
    of the track, the first region of its row (whose name names the track),
    whether it is hidden, and its row of the table. *)
Record TrackParams : Type := mkTrackParams {
  tp_yPos : Z;
  tp_id : Z;
  tp_first : Z;
  tp_hidden : bool;
  tp_regions : list Z
}.

(** The body of [for (let id = 1; id <= trackCount; id++)], over the ids
    that are left.  [hideTrackOffset] is a constant that the module of
    constants at hand does not define; it is a parameter.  Reading
    [genomeRegions[id][0].name] throws when the table has no row for [id]. *)
Fixpoint render_loop (hideTrackOffset : Z) (v : MauveViewer) (ids : list Z) (yPos : Z)
  : option (list TrackParams) :=
  match ids with
  | [] => Some []
  | id :: rest =>
      let isHidden := isHidden id v in
      let yPos :=
        yPos + (if bool_decide (id = 1) then 0
                else if isHidden then hideTrackOffset else trackOffset) in
      row ← genomeRegions v !! id;
      first ← head row;
      rest' ← render_loop hideTrackOffset v rest yPos;
      Some (mkTrackParams yPos id first isHidden row :: rest')
  end.

Definition render_tracks (hideTrackOffset : Z) (v : MauveViewer)
  : option (list TrackParams) :=
  render_loop hideTrackOffset v (seqZ 1 (trackCount v)) marginTop.

(** ** What the per-track table is meant to hold *)

(** The array of a track in the table; a missing key reads as no region. *)
Definition track_row (regions : gmap Z (list Z)) (t : Z) : list Z :=
  default [] (regions !! t).

(** The ids of the regions of track [t], group after group. *)
Definition track_ids (t : Z) (d : list LCB) : list Z :=
  id_ <$> filter (fun r => lcb_idx r = t) (concat d).

(** The table lists, for every track, the regions of that track in the
    groups, and has no key without a region. *)
Definition table_agrees (v : MauveViewer) : Prop :=
  (∀ t, track_row (genomeRegions v) t = track_ids t (data v))
  ∧ (∀ t, genomeRegions v !! t ≠ Some []).

(** Every region carries the index of its group. *)
Definition grouped (d : list LCB) : Prop :=
  ∀ (i : nat) lcb, d !! i = Some lcb → Forall (fun r => groupID r = Z.of_nat i) lcb.

(** What [getGenomeRegions] leaves alone in a region. *)
Definition content (r : Region) : string * Z * Z * string * Z * bool :=
  (name r, start r, end_ r, strand r, lcb_idx r, hidden r).

(** The region of genome 3 in the second block of the example, as loaded. *)
Definition example_region2 : Region := mkRegion "g3" 300 400 "+" 3 5 1 false.

(** * Verification *)

(** ** Facts about [setReference] *)

Section SetReference.

Implicit Types (id t : Z) (lcb : LCB) (r : Region) (v : MauveViewer).

Lemma make_positive_eq id lcb flipped :
  make_positive id lcb flipped
  = (map (positive id) lcb, flipped || ref_not_plusb id lcb).
Proof.
  revert flipped. induction lcb as [|r rest IH]; intros flipped; simpl.
  - by rewrite orb_false_r.
  - unfold positive at 1.
    destruct (decide (lcb_idx r = id)) as [Hid|Hid].
    + rewrite (bool_decide_eq_false_2 (lcb_idx r ≠ id)) by tauto.
      rewrite (bool_decide_eq_true_2 (lcb_idx r = id)) by done.
      destruct (decide (strand r ≠ "+")) as [Hs|Hs].
      * rewrite (bool_decide_eq_true_2 _ Hs), IH. simpl.
        by rewrite orb_true_r.
      * rewrite (bool_decide_eq_false_2 _ Hs), IH. done.
    + rewrite (bool_decide_eq_true_2 (lcb_idx r ≠ id)) by done.
      rewrite (bool_decide_eq_false_2 (lcb_idx r = id)) by done.
      rewrite IH. done.
Qed.

Lemma ref_not_plusb_spec id lcb :
  ref_not_plusb id lcb = true ↔ ref_not_plus id lcb.
Proof.
  unfold ref_not_plusb, ref_not_plus. rewrite existsb_exists. split.
  - intros (r & Hin & Hr). apply andb_true_iff in Hr as [H1 H2].
    apply bool_decide_eq_true in H1, H2. exists r.
    by rewrite list_elem_of_In.
  - intros (r & Hin & H1 & H2). exists r. rewrite <- list_elem_of_In.
    split; [done|]. apply andb_true_iff. by rewrite !bool_decide_eq_true.
Qed.

Lemma ref_not_plusb_false id lcb :
  ref_not_plusb id lcb = false ↔ ∀ r, r ∈ lcb → lcb_idx r = id → strand r = "+".
Proof.
  rewrite <- not_true_iff_false, ref_not_plusb_spec. unfold ref_not_plus. split.
  - intros Hn r Hin Hid. destruct (decide (strand r = "+")); [done|].
    exfalso. apply Hn. eauto.
  - intros Hall (r & Hin & Hid & Hs). auto.
Qed.

Lemma set_strand_same r : set_strand (strand r) r = r.
Proof. by destruct r. Qed.

Lemma positive_id id lcb :
  ref_not_plusb id lcb = false → map (positive id) lcb = lcb.
Proof.
  rewrite ref_not_plusb_false. intros Hall.
  rewrite <- (map_id lcb) at 2. apply map_ext_in. intros r Hin.
  apply list_elem_of_In in Hin. unfold positive.
  destruct (decide (lcb_idx r = id)) as [Hid|Hid].
  - rewrite (bool_decide_eq_false_2 (strand r ≠ "+")); [by rewrite andb_false_r|].
    intros Hs. apply Hs. auto.
  - by rewrite (bool_decide_eq_false_2 _ Hid).
Qed.

Lemma flip_positive id lcb :
  flip_others id (map (positive id) lcb) = map (reorient id) lcb.
Proof.
  unfold flip_others. rewrite map_map. apply map_ext. intros r.
  unfold positive, reorient.
  destruct (decide (lcb_idx r = id)) as [Hid|Hid].
  - rewrite (bool_decide_eq_true_2 _ Hid). simpl.
    destruct (decide (strand r ≠ "+")) as [Hs|Hs].
    + rewrite (bool_decide_eq_true_2 _ Hs). simpl.
      by rewrite (bool_decide_eq_true_2 _ Hid).
    + rewrite (bool_decide_eq_false_2 _ Hs).
      rewrite (bool_decide_eq_true_2 _ Hid).
      apply dec_stable in Hs. rewrite <- Hs. by rewrite set_strand_same.
  - rewrite (bool_decide_eq_false_2 _ Hid). simpl.
    by rewrite (bool_decide_eq_false_2 _ Hid).
Qed.

(** The per-group transform in closed form. *)
Lemma setReference_lcb_eq id lcb :
  setReference_lcb id lcb
  = if ref_not_plusb id lcb then map (reorient id) lcb else lcb.
Proof.
  unfold setReference_lcb. rewrite make_positive_eq. simpl.
  destruct (ref_not_plusb id lcb) eqn:Hf; simpl.
  - apply flip_positive.
  - by apply positive_id.
Qed.

Lemma lcb_idx_reorient id r : lcb_idx (reorient id r) = lcb_idx r.
Proof. unfold reorient. by case_bool_decide. Qed.

Lemma lcb_idx_setReference_lcb id lcb :
  lcb_idx <$> setReference_lcb id lcb = lcb_idx <$> lcb.
Proof.
  rewrite setReference_lcb_eq. destruct (ref_not_plusb id lcb); [|done].
  rewrite <- list_fmap_compose. apply list_fmap_ext. intros ? r _. simpl.
  apply lcb_idx_reorient.
Qed.

(** After [setReference id] the reference members are all ['+']. *)
Lemma setReference_lcb_positive id lcb :
  ref_not_plusb id (setReference_lcb id lcb) = false.
Proof.
  rewrite setReference_lcb_eq.
  destruct (ref_not_plusb id lcb) eqn:Hf; [|done].
  apply ref_not_plusb_false. intros r Hin Hid.
  apply list_elem_of_fmap in Hin as (r0 & -> & _).
  rewrite lcb_idx_reorient in Hid. unfold reorient.
  by rewrite (bool_decide_eq_true_2 _ Hid).
Qed.

Lemma setReference_lcb_idem id lcb :
  setReference_lcb id (setReference_lcb id lcb) = setReference_lcb id lcb.
Proof.
  rewrite (setReference_lcb_eq id (setReference_lcb id lcb)).
  by rewrite setReference_lcb_positive.
Qed.

End SetReference.

Section Reorientation.

Implicit Types (id t : Z) (lcb : LCB) (r : Region) (v : MauveViewer).

Lemma toggle_plus : toggle "+" = "-".
Proof. reflexivity. Qed.

Lemma toggle_minus : toggle "-" = "+".
Proof. reflexivity. Qed.

Lemma toggle_toggle s : s = "+" ∨ s = "-" → toggle (toggle s) = s.
Proof. by intros [-> | ->]. Qed.

Lemma toggle_plus_minus s : toggle s = "+" ∨ toggle s = "-".
Proof. unfold toggle. case_bool_decide; auto. Qed.

(** C2 (setReference works group by group).  In every group: when the
    reference track has a member whose strand is not ['+'], that member is
    set to ['+'] and every other member of the group is toggled, ['+'] to
    ['-'] and ['-'] to ['+']; when the reference track has no member in the
    group, or its member is ['+'] already, the group is left as it was.
    Nothing but strands changes and no group is added or removed. *)
Theorem setReference_per_group id v (i : nat) lcb :
  data v !! i = Some lcb →
  ∃ lcb',
    data (setReference id v) !! i = Some lcb'
    ∧ (ref_not_plus id lcb →
       lcb' = map (fun r => if bool_decide (lcb_idx r = id) then set_strand "+" r
                            else set_strand (toggle (strand r)) r) lcb)
    ∧ ((∀ r, r ∈ lcb → lcb_idx r = id → strand r = "+") → lcb' = lcb)
    ∧ toggle "+" = "-" ∧ toggle "-" = "+"
    ∧ length (data (setReference id v)) = length (data v).
Proof.
  intros Hi. exists (setReference_lcb id lcb). simpl. unfold setReference_data.
  split; [by rewrite list_lookup_fmap, Hi|].
  rewrite setReference_lcb_eq. repeat split.
  - intros Hn. apply ref_not_plusb_spec in Hn. by rewrite Hn.
  - intros Hp. apply ref_not_plusb_false in Hp. by rewrite Hp.
  - by rewrite length_map.
Qed.

Lemma setReference_per_group_witness :
  ∃ lcb',
    data (setReference 2 example_viewer) !! 1%nat = Some lcb'
    ∧ (ref_not_plus 2 [ mkRegion "g2" 700 800 "-" 2 4 1 false;
                        mkRegion "g3" 300 400 "+" 3 5 1 false ] →
       lcb' = [ mkRegion "g2" 700 800 "+" 2 4 1 false;
                mkRegion "g3" 300 400 "-" 3 5 1 false ])
    ∧ ((∀ r, r ∈ [ mkRegion "g2" 700 800 "-" 2 4 1 false;
                   mkRegion "g3" 300 400 "+" 3 5 1 false ] →
             lcb_idx r = 2 → strand r = "+") →
       lcb' = [ mkRegion "g2" 700 800 "-" 2 4 1 false;
                mkRegion "g3" 300 400 "+" 3 5 1 false ])
    ∧ toggle "+" = "-" ∧ toggle "-" = "+"
    ∧ length (data (setReference 2 example_viewer)) = length (data example_viewer).
Proof.
  apply (setReference_per_group 2 example_viewer 1
           [ mkRegion "g2" 700 800 "-" 2 4 1 false;
             mkRegion "g3" 300 400 "+" 3 5 1 false ]).
  vm_compute. reflexivity.
Defined.

(** C3 (idempotence).  A second [setReference] with the same track index
    changes nothing: the viewer is the same after two calls as after one. *)
Theorem setReference_idempotent id v :
  setReference id (setReference id v) = setReference id v.
Proof.
  unfold setReference. simpl. f_equal. unfold setReference_data.
  rewrite map_map. apply map_ext. intros lcb. apply setReference_lcb_idem.
Qed.

Lemma plus_minus_setReference_lcb id lcb :
  plus_minus lcb → plus_minus (setReference_lcb id lcb).
Proof.
  intros Hpm. rewrite setReference_lcb_eq.
  destruct (ref_not_plusb id lcb); [|done].
  unfold plus_minus in *. rewrite Forall_forall in *.
  intros r Hin. apply list_elem_of_fmap in Hin as (r0 & -> & Hin0).
  unfold reorient. case_bool_decide; simpl; [auto|apply toggle_plus_minus].
Qed.

Lemma one_per_track_setReference_lcb id lcb :
  one_per_track lcb → one_per_track (setReference_lcb id lcb).
Proof. unfold one_per_track. by rewrite lcb_idx_setReference_lcb. Qed.

Lemma has_track_setReference_lcb id t lcb :
  has_track t (setReference_lcb id lcb) = has_track t lcb.
Proof. unfold has_track. by rewrite lcb_idx_setReference_lcb. Qed.

(** Two members of a group on the same track are the same region. *)
Lemma one_per_track_inj lcb r1 r2 :
  one_per_track lcb → r1 ∈ lcb → r2 ∈ lcb → lcb_idx r1 = lcb_idx r2 → r1 = r2.
Proof.
  unfold one_per_track. induction lcb as [|r rest IH]; simpl.
  - intros _ H. by apply elem_of_nil in H.
  - intros Hnd H1 H2 Heq. apply NoDup_cons in Hnd as [Hnot Hnd].
    apply elem_of_cons in H1 as [->|H1]; apply elem_of_cons in H2 as [->|H2].
    + done.
    + exfalso. apply Hnot. rewrite Heq. by apply list_elem_of_fmap_2.
    + exfalso. apply Hnot. rewrite <- Heq. by apply list_elem_of_fmap_2.
    + by apply IH.
Qed.

(** Without a member of track [id] the group is not touched. *)
Lemma setReference_lcb_absent id lcb :
  has_track id lcb = false → setReference_lcb id lcb = lcb.
Proof.
  intros Hno. rewrite setReference_lcb_eq.
  replace (ref_not_plusb id lcb) with false; [done|].
  symmetry. apply ref_not_plusb_false. intros r Hin Hid. exfalso.
  apply bool_decide_eq_false in Hno. apply Hno. rewrite <- Hid.
  by apply list_elem_of_fmap_2.
Qed.

(** Re-flipping: in a group that holds the reference track [t], whose
    members are ['+'], a flip relative to [t2] is undone by [setReference t]. *)
Lemma reflip t t2 lcb :
  plus_minus lcb → one_per_track lcb → has_track t lcb = true →
  ref_not_plusb t lcb = false →
  setReference_lcb t (setReference_lcb t2 lcb) = lcb.
Proof.
  intros Hpm Hone Hhas Hpos.
  rewrite (setReference_lcb_eq t2 lcb).
  destruct (ref_not_plusb t2 lcb) eqn:H2.
  2:{ rewrite setReference_lcb_eq. by rewrite Hpos. }
  assert (t ≠ t2) as Hne by (intros ->; congruence).
  apply ref_not_plusb_spec in H2 as (r2 & Hin2 & Hid2 & Hs2).
  apply bool_decide_eq_true in Hhas.
  apply list_elem_of_fmap in Hhas as (rt & Hidt & Hint).
  pose proof (proj1 (ref_not_plusb_false t lcb) Hpos) as Hplus.
  rewrite setReference_lcb_eq.
  replace (ref_not_plusb t (map (reorient t2) lcb)) with true.
  2:{ symmetry. apply ref_not_plusb_spec. exists (reorient t2 rt).
      split; [by apply list_elem_of_fmap_2|].
      split; [by rewrite lcb_idx_reorient|].
      unfold reorient. rewrite bool_decide_eq_false_2 by congruence. simpl.
      rewrite (Hplus rt) by done. done. }
  rewrite map_map. rewrite <- (map_id lcb) at 2. apply map_ext_in.
  intros r Hin. apply list_elem_of_In in Hin.
  unfold plus_minus in Hpm. rewrite Forall_forall in Hpm.
  pose proof (Hpm r Hin) as Hr.
  destruct (decide (lcb_idx r = t2)) as [Hr2|Hr2].
  - assert (r = r2) as -> by (apply (one_per_track_inj lcb); congruence).
    destruct Hr as [Hr|Hr]; [done|].
    unfold reorient at 2. rewrite (bool_decide_eq_true_2 _ Hr2).
    unfold reorient. simpl. rewrite bool_decide_eq_false_2 by congruence.
    destruct r2; simpl in *. by rewrite Hr.
  - unfold reorient at 2. rewrite (bool_decide_eq_false_2 _ Hr2).
    unfold reorient. simpl.
    destruct (decide (lcb_idx r = t)) as [Hrt|Hrt].
    + rewrite (bool_decide_eq_true_2 _ Hrt).
      pose proof (Hplus r Hin Hrt) as Hp. destruct r; simpl in *. by rewrite Hp.
    + rewrite (bool_decide_eq_false_2 _ Hrt).
      pose proof (toggle_toggle _ Hr) as Htt. destruct r; simpl in *.
      by rewrite Htt.
Qed.

End Reorientation.

Section Reflip.

Implicit Types (t : Z) (lcb : LCB) (v : MauveViewer).

(** C4, as the code has it.  On a well-formed region set, the sequence
    [setReference t; setReference t2; setReference t] gives every group that
    has a member on track [t] the strands that [setReference t] alone gives
    it.  A group without a member on track [t] is not touched by
    [setReference t], so it ends as [setReference t2] leaves it. *)
Theorem setReference_reflip t t2 v :
  well_formed (data v) →
  data (setReference t (setReference t2 (setReference t v)))
  = map (fun lcb => if has_track t lcb then setReference_lcb t lcb
                    else setReference_lcb t2 lcb) (data v).
Proof.
  intros Hwf. simpl. unfold setReference_data. rewrite !map_map.
  apply map_ext_in. intros lcb Hin. apply list_elem_of_In in Hin.
  unfold well_formed in Hwf. rewrite Forall_forall in Hwf.
  destruct (Hwf lcb Hin) as [Hpm Hone].
  destruct (has_track t lcb) eqn:Hhas.
  - apply reflip.
    + by apply plus_minus_setReference_lcb.
    + by apply one_per_track_setReference_lcb.
    + by rewrite has_track_setReference_lcb.
    + apply setReference_lcb_positive.
  - rewrite (setReference_lcb_absent t lcb) by done.
    apply setReference_lcb_absent. by rewrite has_track_setReference_lcb.
Qed.

Lemma example_well_formed : well_formed (data example_viewer).
Proof.
  apply (bool_decide_unpack (well_formed _)). vm_compute. exact I.
Qed.

Lemma setReference_reflip_witness :
  data (setReference 1 (setReference 2 (setReference 1 example_viewer)))
  = map (fun lcb => if has_track 1 lcb then setReference_lcb 1 lcb
                    else setReference_lcb 2 lcb) (data example_viewer).
Proof.
  apply (setReference_reflip 1 2 example_viewer).
  apply (bool_decide_unpack (well_formed _)). vm_compute. exact I.
Defined.

(** C4 as stated fails on a group that has no region on track [t]: in the
    example the second block holds genomes 2 and 3 only, [setReference 2]
    flips it and [setReference 1] never flips it back. *)
Lemma setReference_reflip_counterexample :
  well_formed (data example_viewer)
  ∧ map (map strand)
        (data (setReference 1 (setReference 2 (setReference 1 example_viewer))))
    = [ ["+"; "-"; "+"]; ["+"; "-"] ]
  ∧ map (map strand) (data (setReference 1 example_viewer))
    = [ ["+"; "-"; "+"]; ["-"; "+"] ]
  ∧ data (setReference 1 (setReference 2 (setReference 1 example_viewer)))
    ≠ data (setReference 1 example_viewer).
Proof.
  split; [apply example_well_formed|].
  split; [by vm_compute|]. split; [by vm_compute|].
  intros Heq. apply (f_equal (map (map strand))) in Heq.
  vm_compute in Heq. discriminate Heq.
Qed.

End Reflip.

(** ** The stable sort *)

Section StableSort.

Context {A : Type}.
Implicit Types (key : A → Z) (x y : A) (l : list A) (c : Z).

Lemma sort_insert_filter key c x l :
  filter (fun y => key y = c) (sort_insert (key_compare key) x l)
  = filter (fun y => key y = c) (x :: l).
Proof.
  induction l as [|y l IH]; simpl; [done|].
  unfold key_compare at 1. case_bool_decide as Hle; [done|].
  rewrite (filter_cons _ y), IH, !(filter_cons _ x), (filter_cons _ y).
  destruct (decide (key x = c)), (decide (key y = c)); try done.
  exfalso. lia.
Qed.

(** Stability: the elements with one key keep their order. *)
Lemma array_sort_filter key c l :
  filter (fun y => key y = c) (array_sort (key_compare key) l)
  = filter (fun y => key y = c) l.
Proof.
  induction l as [|x l IH]; simpl; [done|].
  rewrite sort_insert_filter, !filter_cons, IH. done.
Qed.

Lemma sort_insert_elem_of key x y l :
  y ∈ sort_insert (key_compare key) x l ↔ y = x ∨ y ∈ l.
Proof.
  induction l as [|z l IH]; simpl.
  - rewrite list_elem_of_singleton, elem_of_nil. tauto.
  - case_bool_decide; rewrite !elem_of_cons; [done|]. rewrite IH. tauto.
Qed.

Lemma sort_insert_sorted key x l :
  StronglySorted (fun a b => key a ≤ key b) l →
  StronglySorted (fun a b => key a ≤ key b) (sort_insert (key_compare key) x l).
Proof.
  induction l as [|y l IH]; simpl; intros Hs.
  - repeat constructor.
  - unfold key_compare at 1. case_bool_decide as Hle.
    + constructor; [done|]. apply StronglySorted_inv in Hs as [_ Hall].
      constructor; [lia|]. eapply Forall_impl; [exact Hall|].
      simpl. intros; lia.
    + apply StronglySorted_inv in Hs as [Hs Hall].
      constructor; [by apply IH|]. rewrite Forall_forall. intros z Hz.
      apply sort_insert_elem_of in Hz as [->|Hz]; [lia|].
      rewrite Forall_forall in Hall. by apply Hall.
Qed.

Lemma array_sort_sorted key l :
  StronglySorted (fun a b => key a ≤ key b) (array_sort (key_compare key) l).
Proof.
  induction l as [|x l IH]; simpl; [constructor|]. by apply sort_insert_sorted.
Qed.

(** A list in order is left alone. *)
Lemma array_sort_id key l :
  StronglySorted (fun a b => key a ≤ key b) l → array_sort (key_compare key) l = l.
Proof.
  induction l as [|x l IH]; simpl; intros Hs; [done|].
  apply StronglySorted_inv in Hs as [Hs Hall]. rewrite IH by done.
  destruct l as [|y l]; simpl; [done|]. unfold key_compare.
  apply Forall_cons in Hall as [Hxy _]. rewrite bool_decide_eq_true_2 by lia.
  done.
Qed.

(** Two lists in order that agree key by key are equal. *)
Lemma sorted_filter_eq key l1 l2 :
  StronglySorted (fun a b => key a ≤ key b) l1 →
  StronglySorted (fun a b => key a ≤ key b) l2 →
  (∀ c, filter (fun y => key y = c) l1 = filter (fun y => key y = c) l2) →
  l1 = l2.
Proof.
  revert l2. induction l1 as [|x l1 IH]; intros l2 Hs1 Hs2 Hf.
  - destruct l2 as [|y l2]; [done|]. specialize (Hf (key y)).
    rewrite filter_nil, filter_cons_True in Hf by done. discriminate.
  - destruct l2 as [|y l2].
    { specialize (Hf (key x)).
      rewrite filter_nil, filter_cons_True in Hf by done. discriminate. }
    apply StronglySorted_inv in Hs1 as [Hs1 Hall1].
    apply StronglySorted_inv in Hs2 as [Hs2 Hall2].
    rewrite Forall_forall in Hall1, Hall2.
    assert (key x = key y) as Hk.
    { assert (x ∈ y :: l2) as Hx.
      { eapply (list_elem_of_filter (fun z => key z = key x)).
        rewrite <- Hf, filter_cons_True by done. left. }
      assert (y ∈ x :: l1) as Hy.
      { eapply (list_elem_of_filter (fun z => key z = key y)).
        rewrite Hf, filter_cons_True by done. left. }
      apply elem_of_cons in Hx as [->|Hx]; [done|].
      apply elem_of_cons in Hy as [->|Hy]; [done|].
      specialize (Hall1 _ Hy). specialize (Hall2 _ Hx). lia. }
    assert (x = y) as ->.
    { specialize (Hf (key x)).
      rewrite !filter_cons_True in Hf by done. congruence. }
    f_equal. apply IH; [done..|]. intros c. specialize (Hf c).
    rewrite !filter_cons in Hf. destruct (decide (key y = c)); congruence.
Qed.

Lemma sort_insert_fmap {B} (f : B → A) key (x : B) (l : list B) :
  sort_insert (key_compare key) (f x) (map f l)
  = map f (sort_insert (key_compare (key ∘ f)) x l).
Proof.
  induction l as [|y l IH]; simpl; [done|].
  change (key_compare key (f x) (f y)) with (key_compare (key ∘ f) x y).
  case_bool_decide; simpl; [done|]. by rewrite IH.
Qed.

Lemma array_sort_fmap {B} (f : B → A) key (l : list B) :
  array_sort (key_compare key) (map f l)
  = map f (array_sort (key_compare (key ∘ f)) l).
Proof.
  induction l as [|x l IH]; simpl; [done|]. by rewrite IH, sort_insert_fmap.
Qed.

End StableSort.

(** ** Facts about the track swap *)

Section Swap.

Implicit Types (a b : Z) (lcb : LCB) (r : Region) (v : MauveViewer).

Lemma lcb_idx_relabel_region a b r :
  lcb_idx (relabel_region a b r) = swap_idx a b (lcb_idx r).
Proof. unfold relabel_region, swap_idx. by repeat case_bool_decide. Qed.

Lemma swap_idx_involutive a b i : swap_idx a b (swap_idx a b i) = i.
Proof. unfold swap_idx. repeat case_bool_decide; congruence. Qed.

Lemma swap_idx_inj a b i j : swap_idx a b i = swap_idx a b j ↔ i = j.
Proof.
  split; [|by intros ->]. intros H.
  by rewrite <- (swap_idx_involutive a b i), H, swap_idx_involutive.
Qed.

Lemma relabel_region_involutive a b r :
  relabel_region a b (relabel_region a b r) = r.
Proof.
  destruct r as [nm s e str i k g h]. unfold relabel_region. simpl.
  repeat (case_bool_decide; simpl in * ); subst; try done; congruence.
Qed.

Lemma relabel_involutive a b lcb : relabel a b (relabel a b lcb) = lcb.
Proof.
  unfold relabel. rewrite map_map. rewrite <- (map_id lcb) at 2.
  apply map_ext. intros r. apply relabel_region_involutive.
Qed.

(** Sorting by the exchanged index and then by the index is sorting by the
    index: regions tie under one key exactly when they tie under the other,
    and a stable sort keeps ties in place. *)
Lemma sort_after_exchange a b lcb :
  array_sort by_lcb_idx
    (array_sort (key_compare (lcb_idx ∘ relabel_region a b)) lcb)
  = array_sort by_lcb_idx lcb.
Proof.
  unfold by_lcb_idx. apply (sorted_filter_eq lcb_idx).
  - apply array_sort_sorted.
  - apply array_sort_sorted.
  - intros c. rewrite !array_sort_filter.
    rewrite (list_filter_iff (fun y => lcb_idx y = c)
               (fun y => (lcb_idx ∘ relabel_region a b) y = swap_idx a b c)).
    2:{ intros r. simpl. by rewrite lcb_idx_relabel_region, swap_idx_inj. }
    rewrite array_sort_filter. apply list_filter_iff.
    intros r. simpl. by rewrite lcb_idx_relabel_region, swap_idx_inj.
Qed.

(** Two swaps of a group restore every track index and leave the group
    sorted. *)
Lemma swapBackbones_lcb_twice a b lcb :
  swapBackbones_lcb a b (swapBackbones_lcb a b lcb) = array_sort by_lcb_idx lcb.
Proof.
  unfold swapBackbones_lcb, relabel, by_lcb_idx.
  rewrite (array_sort_fmap (relabel_region a b) lcb_idx lcb).
  fold (relabel a b (array_sort (key_compare (lcb_idx ∘ relabel_region a b)) lcb)).
  fold (relabel a b (relabel a b
          (array_sort (key_compare (lcb_idx ∘ relabel_region a b)) lcb))).
  rewrite relabel_involutive. apply sort_after_exchange.
Qed.

Lemma swapBackbones_lcb_ascending a b lcb : ascending (swapBackbones_lcb a b lcb).
Proof. apply array_sort_sorted. Qed.

Lemma swapTrack_table_twice a b (m : gmap Z (list Z)) :
  swapTrack_table a b (swapTrack_table a b m) = m.
Proof.
  apply map_eq. intros i. unfold swapTrack_table, obj_write.
  rewrite !lookup_partial_alter.
  repeat (case_decide; subst; try done); congruence.
Qed.

(** Two swaps restore the per-track table and every track index, and leave
    each group sorted by track index, regions of one track in their former
    order. *)
Lemma double_swap_sorts a b v :
  swap a b (swap a b v)
  = mkViewer (map (array_sort by_lcb_idx) (data v)) (genomeRegions v)
             (trackCount v) (hiddenTracks v).
Proof.
  unfold swap, swapBackbones, swapTrack, swapBackbones_data. simpl.
  rewrite swapTrack_table_twice, map_map. f_equal.
  apply map_ext. intros lcb. apply swapBackbones_lcb_twice.
Qed.

(** Every swap leaves the groups in ascending track order. *)
Lemma swap_ascending a b v : Forall ascending (data (swap a b v)).
Proof.
  simpl. unfold swapBackbones_data. rewrite Forall_forall. intros lcb Hin.
  apply list_elem_of_fmap in Hin as (lcb0 & -> & _).
  apply swapBackbones_lcb_ascending.
Qed.

(** C5, as the code has it.  On a region set whose groups are each in
    ascending track order, two swaps with the same arguments are the
    identity: the per-track table, every region's track index and each
    group's iteration order are as before. *)
Theorem swap_twice a b v :
  Forall ascending (data v) → swap a b (swap a b v) = v.
Proof.
  intros Hasc. rewrite double_swap_sorts. destruct v as [d g n h].
  simpl in *. f_equal. rewrite <- (map_id d) at 2. apply map_ext_in.
  intros lcb Hin. apply list_elem_of_In in Hin. rewrite Forall_forall in Hasc.
  apply (array_sort_id lcb_idx). by apply Hasc.
Qed.

Lemma swap_twice_witness : swap 1 2 (swap 1 2 example_viewer) = example_viewer.
Proof.
  apply (swap_twice 1 2 example_viewer).
  apply (bool_decide_unpack (Forall ascending _)). vm_compute. exact I.
Defined.

(** C5 as stated fails on a group that is not in track order to begin with:
    the block lists genome 2 before genome 1, and after two swaps genome 1
    comes first. *)
Lemma swap_twice_counterexample :
  map (map name) (data unordered_viewer) = [ ["g2"; "g1"] ]
  ∧ map (map lcb_idx) (data unordered_viewer) = [ [2; 1] ]
  ∧ map (map name) (data (swap 1 2 (swap 1 2 unordered_viewer))) = [ ["g1"; "g2"] ]
  ∧ map (map lcb_idx) (data (swap 1 2 (swap 1 2 unordered_viewer))) = [ [1; 2] ]
  ∧ data (swap 1 2 (swap 1 2 unordered_viewer)) ≠ data unordered_viewer.
Proof.
  repeat (split; [by vm_compute|]).
  intros Heq. apply (f_equal (map (map name))) in Heq.
  vm_compute in Heq. discriminate Heq.
Qed.

End Swap.

(** ** Group membership *)

Section Membership.

Implicit Types (a b t : Z) (lcb : LCB) (r : Region) (v : MauveViewer)
  (d : list LCB).

Lemma sort_insert_perm {A} (compare : A → A → Z) (x : A) (l : list A) :
  sort_insert compare x l ≡ₚ x :: l.
Proof.
  induction l as [|y l IH]; simpl; [done|].
  case_bool_decide; [done|]. rewrite IH. apply Permutation_swap.
Qed.

Lemma array_sort_perm {A} (compare : A → A → Z) (l : list A) :
  array_sort compare l ≡ₚ l.
Proof.
  induction l as [|x l IH]; simpl; [done|]. by rewrite sort_insert_perm, IH.
Qed.

Lemma same_groups_refl d : same_groups d d.
Proof. unfold same_groups. apply Forall2_same_length_lookup_2; [done|].
  intros i g g' H1 H2. by simplify_eq. Qed.

Lemma same_groups_trans d1 d2 d3 :
  same_groups d1 d2 → same_groups d2 d3 → same_groups d1 d3.
Proof.
  unfold same_groups. intros H12 H23.
  eapply Forall2_trans; [|exact H12|exact H23].
  simpl. intros g1 g2 g3 Ha Hb. by rewrite Ha.
Qed.

(** An operation that rewrites the regions of every group in place, touching
    no field of the frame, keeps the groups. *)
Lemma same_groups_map (f : LCB → LCB) d :
  (∀ lcb, frame <$> f lcb ≡ₚ frame <$> lcb) → same_groups d (map f d).
Proof.
  intros Hf. unfold same_groups. apply Forall2_fmap_r, Forall_Forall2_diag.
  rewrite Forall_forall. intros lcb _. simpl. by rewrite Hf.
Qed.

Lemma frame_fmap_ext (f : Region → Region) lcb :
  (∀ r, frame (f r) = frame r) → frame <$> (f <$> lcb) = frame <$> lcb.
Proof.
  intros Hf. rewrite <- list_fmap_compose. apply list_fmap_ext.
  intros ? r _. apply Hf.
Qed.

Lemma frame_reorient t r : frame (reorient t r) = frame r.
Proof. unfold reorient. by case_bool_decide. Qed.

Lemma frame_relabel_region a b r : frame (relabel_region a b r) = frame r.
Proof. unfold relabel_region. by repeat case_bool_decide. Qed.

Lemma frame_mark_hidden t r : frame (mark_hidden t r) = frame r.
Proof. unfold mark_hidden. by case_bool_decide. Qed.

Lemma frame_clear_hidden t r : frame (clear_hidden t r) = frame r.
Proof. unfold clear_hidden. by case_bool_decide. Qed.

Lemma same_groups_setReference t v : same_groups (data v) (data (setReference t v)).
Proof.
  simpl. apply same_groups_map. intros lcb. rewrite setReference_lcb_eq.
  destruct (ref_not_plusb t lcb); [|done].
  by rewrite (frame_fmap_ext (reorient t)) by apply frame_reorient.
Qed.

(** After a swap every group holds its former regions, renumbered. *)
Lemma swap_renumbers a b v :
  Forall2 (fun g g' => g' ≡ₚ relabel a b g) (data v) (data (swap a b v)).
Proof.
  simpl. unfold swapBackbones_data. apply Forall2_fmap_r, Forall_Forall2_diag.
  rewrite Forall_forall. intros lcb _. simpl. apply array_sort_perm.
Qed.

Lemma same_groups_swap a b v : same_groups (data v) (data (swap a b v)).
Proof.
  simpl. apply same_groups_map. intros lcb. unfold swapBackbones_lcb.
  rewrite array_sort_perm. unfold relabel.
  by rewrite (frame_fmap_ext (relabel_region a b)) by apply frame_relabel_region.
Qed.

Lemma same_groups_hideTrack t v : same_groups (data v) (data (hideTrack t v)).
Proof.
  simpl. apply same_groups_map. intros lcb.
  by rewrite (frame_fmap_ext (mark_hidden t)) by apply frame_mark_hidden.
Qed.

Lemma same_groups_showTrack t v : same_groups (data v) (data (showTrack t v)).
Proof.
  simpl. apply same_groups_map. intros lcb.
  by rewrite (frame_fmap_ext (clear_hidden t)) by apply frame_clear_hidden.
Qed.

Lemma same_groups_apply_op op v : same_groups (data v) (data (apply_op op v)).
Proof.
  destruct op as [t|t|t|a b|t|t]; simpl apply_op.
  - apply same_groups_setReference.
  - unfold moveTrackUp. case_bool_decide;
      [apply same_groups_refl|apply same_groups_swap].
  - unfold moveTrackDown. case_bool_decide;
      [apply same_groups_refl|apply same_groups_swap].
  - apply same_groups_swap.
  - apply same_groups_hideTrack.
  - apply same_groups_showTrack.
Qed.

(** C7 (group membership).  Whatever sequence of [setReference], track
    moves and swaps, [hideTrack] and [showTrack] is applied, the groups stay
    the same groups: group by group the regions are the former ones, with
    their name, coordinates, id and [groupID], up to the order inside the
    group.  A swap renumbers the track index of the regions of a group and
    does nothing else to its membership. *)
Theorem group_membership_preserved (ops : list Op) v :
  same_groups (data v) (data (run ops v))
  ∧ ∀ a b, Forall2 (fun g g' =>
             g' ≡ₚ map (fun r => set_lcb_idx (swap_idx a b (lcb_idx r)) r) g)
           (data v) (data (swap a b v)).
Proof.
  split.
  - revert v. induction ops as [|op ops IH]; intros v; simpl.
    + apply same_groups_refl.
    + eapply same_groups_trans; [apply same_groups_apply_op|apply IH].
  - intros a b. eapply Forall2_impl; [apply swap_renumbers|].
    simpl. intros g g' ->. unfold relabel.
    apply Permutation_refl'. apply map_ext. intros r.
    destruct r. unfold relabel_region, swap_idx. simpl.
    repeat (case_bool_decide; simpl in * ); subst; done.
Qed.

End Membership.

(** ** [showTrack] and the list of hidden tracks *)

Section Hidden.

Implicit Types (id j : Z) (l pre post : list Z) (v : MauveViewer).

Lemma indexOf_from_first id pre post (i : Z) :
  id ∉ pre → indexOf_from id (pre ++ id :: post) i = i + Z.of_nat (length pre).
Proof.
  revert i. induction pre as [|y pre IH]; intros i Hnot; simpl.
  - rewrite bool_decide_eq_true_2 by done. lia.
  - apply not_elem_of_cons in Hnot as [Hne Hnot].
    rewrite bool_decide_eq_false_2 by congruence. rewrite IH by done. lia.
Qed.

Lemma indexOf_from_absent id l (i : Z) : id ∉ l → indexOf_from id l i = -1.
Proof.
  revert i. induction l as [|y l IH]; intros i Hnot; simpl; [done|].
  apply not_elem_of_cons in Hnot as [Hne Hnot].
  rewrite bool_decide_eq_false_2 by congruence. by apply IH.
Qed.

(** The first occurrence of a member splits the list. *)
Lemma first_occurrence id l :
  id ∈ l → ∃ pre post, l = pre ++ id :: post ∧ id ∉ pre.
Proof.
  induction l as [|y l IH]; intros Hin; [by apply elem_of_nil in Hin|].
  destruct (decide (y = id)) as [->|Hne].
  - exists [], l. split; [done|]. apply not_elem_of_nil.
  - apply elem_of_cons in Hin as [->|Hin]; [done|].
    destruct (IH Hin) as (pre & post & -> & Hnot).
    exists (y :: pre), post. split; [done|].
    apply not_elem_of_cons. split; [congruence|done].
Qed.

Lemma splice_first id pre post :
  id ∉ pre → splice (indexOf id (pre ++ id :: post)) (pre ++ id :: post) = pre.
Proof.
  intros Hnot. unfold indexOf, splice. rewrite indexOf_from_first by done.
  rewrite bool_decide_eq_false_2 by lia.
  rewrite length_app. simpl length.
  rewrite Z.min_l by lia. rewrite Z.add_0_l, Nat2Z.id.
  by rewrite take_app_length.
Qed.

(** When the track is not in the list, [indexOf] is [-1] and [splice(-1)]
    drops the last entry. *)
Lemma splice_absent id l :
  id ∉ l → splice (indexOf id l) l = take (length l - 1) l.
Proof.
  intros Hnot. unfold indexOf, splice. rewrite indexOf_from_absent by done.
  simpl. f_equal. lia.
Qed.

(** C10, as the code has it.  When [id] is in the list, [showTrack id]
    keeps only the entries before the first [id]: [id] goes, and so does
    every entry after it.  A track hidden after [id] is therefore not
    hidden for the next [render], unless it has an entry before the first
    [id] as well, and then it stays hidden.  Its regions keep their [hidden]
    flag either way: the flag is cleared on the regions of track [id]
    only. *)
Theorem showTrack_truncates id v :
  id ∈ hiddenTracks v →
  ∃ pre post,
    hiddenTracks v = pre ++ id :: post
    ∧ (id ∉ pre)
    ∧ hiddenTracks (showTrack id v) = pre
    ∧ (∀ j, j ∈ post → j ∉ pre → isHidden j (showTrack id v) = false)
    ∧ (∀ j, j ∈ pre → isHidden j (showTrack id v) = true)
    ∧ Forall2 (Forall2 (fun r r' =>
                 r' = if bool_decide (lcb_idx r = id) then set_hidden false r
                      else r))
        (data v) (data (showTrack id v)).
Proof.
  intros Hin. destruct (first_occurrence id _ Hin) as (pre & post & Hl & Hnot).
  exists pre, post. split; [done|]. split; [done|].
  assert (hiddenTracks (showTrack id v) = pre) as Hpre.
  { simpl. rewrite Hl. by apply splice_first. }
  split; [done|]. split; [|split].
  - intros j _ Hj. unfold isHidden. rewrite Hpre. by apply bool_decide_eq_false_2.
  - intros j Hj. unfold isHidden. rewrite Hpre. by apply bool_decide_eq_true_2.
  - simpl. apply Forall2_fmap_r, Forall_Forall2_diag, Forall_forall.
    intros lcb _. simpl. apply Forall2_fmap_r, Forall_Forall2_diag, Forall_forall.
    intros r _. done.
Qed.

Lemma showTrack_truncates_witness :
  ∃ pre post,
    hiddenTracks (hideTrack 3 (hideTrack 2 example_viewer)) = pre ++ 2 :: post
    ∧ (2 ∉ pre)
    ∧ hiddenTracks (showTrack 2 (hideTrack 3 (hideTrack 2 example_viewer))) = pre
    ∧ (∀ j, j ∈ post → j ∉ pre →
         isHidden j (showTrack 2 (hideTrack 3 (hideTrack 2 example_viewer))) = false)
    ∧ (∀ j, j ∈ pre →
         isHidden j (showTrack 2 (hideTrack 3 (hideTrack 2 example_viewer))) = true)
    ∧ Forall2 (Forall2 (fun r r' =>
                 r' = if bool_decide (lcb_idx r = 2) then set_hidden false r
                      else r))
        (data (hideTrack 3 (hideTrack 2 example_viewer)))
        (data (showTrack 2 (hideTrack 3 (hideTrack 2 example_viewer)))).
Proof.
  apply (showTrack_truncates 2 (hideTrack 3 (hideTrack 2 example_viewer))).
  apply (bool_decide_unpack _). vm_compute. exact I.
Defined.

(** C10 as stated fails when a track hidden after [id] was hidden before
    [id] too: track 3 is hidden, then track 2, then track 3 once more.  The
    list is [3; 2; 3]; track 3 is hidden after track 2, and [showTrack 2]
    leaves [3], so that track 3 is still hidden for the next [render]. *)
Lemma showTrack_truncates_counterexample :
  hiddenTracks (hideTrack 3 (hideTrack 2 (hideTrack 3 example_viewer))) = [3; 2; 3]
  ∧ 2 ∈ hiddenTracks (hideTrack 3 (hideTrack 2 (hideTrack 3 example_viewer)))
  ∧ indexOf 2 [3; 2; 3] = 1
  ∧ 3 ∈ drop 2 [3; 2; 3]
  ∧ hiddenTracks
      (showTrack 2 (hideTrack 3 (hideTrack 2 (hideTrack 3 example_viewer)))) = [3]
  ∧ isHidden 3
      (showTrack 2 (hideTrack 3 (hideTrack 2 (hideTrack 3 example_viewer)))) = true.
Proof.
  split; [by vm_compute|]. split.
  { apply (bool_decide_unpack _). vm_compute. exact I. }
  split; [by vm_compute|]. split.
  { apply (bool_decide_unpack _). vm_compute. exact I. }
  split; by vm_compute.
Qed.

(** Tracks 2 and 3 are hidden in this order, then track 2 is shown: the
    list is empty, track 3 counts as visible, its regions are still flagged. *)
Example showTrack_example :
  hiddenTracks (hideTrack 3 (hideTrack 2 example_viewer)) = [2; 3]
  ∧ hiddenTracks (showTrack 2 (hideTrack 3 (hideTrack 2 example_viewer))) = []
  ∧ isHidden 3 (showTrack 2 (hideTrack 3 (hideTrack 2 example_viewer))) = false
  ∧ map (map (fun r => (lcb_idx r, hidden r)))
        (data (showTrack 2 (hideTrack 3 (hideTrack 2 example_viewer))))
    = [ [(1, false); (2, false); (3, true)]; [(2, false); (3, true)] ].
Proof. repeat split; by vm_compute. Qed.

End Hidden.

(** ** The cursor: arrays and marks *)

Section Arrays.

Context {A : Type}.
Implicit Types (l : list A) (i j : Z).

Lemma array_get_is_Some l i :
  is_Some (array_get l i) ↔ 0 ≤ i < Z.of_nat (length l).
Proof.
  unfold array_get. case_bool_decide as Hi.
  - rewrite lookup_lt_is_Some. lia.
  - split; [by intros [? ?]|lia].
Qed.

Lemma array_get_insert_eq l i (v : A) :
  is_Some (array_get l i) → array_get (<[Z.to_nat i := v]> l) i = Some v.
Proof.
  intros Hi. apply array_get_is_Some in Hi. unfold array_get.
  rewrite bool_decide_eq_true_2 by lia. apply list_lookup_insert_eq. lia.
Qed.

Lemma array_get_insert_ne l i j (v : A) :
  0 ≤ i → i ≠ j → array_get (<[Z.to_nat i := v]> l) j = array_get l j.
Proof.
  intros Hi Hne. unfold array_get. case_bool_decide; [|done].
  apply list_lookup_insert_ne. lia.
Qed.

End Arrays.

Lemma on_track_same c c' t :
  tracks c' = tracks c → length (hoverLines c') = length (hoverLines c) →
  on_track c t → on_track c' t.
Proof.
  unfold on_track. rewrite !array_get_is_Some. intros -> ->. done.
Qed.

Section PlaceOther.

Variables (trackID : Z) (hoverStrand : string) (xPos relXPos : Q).

Implicit Types (c : Cursor) (d r : Region) (t : Z) (sel : list Region).


Lemma place_other_hovered d c : lcb_idx d = trackID → place_other trackID hoverStrand xPos relXPos d c = Some c.
Proof.
  intros Hd. unfold place_other. by rewrite bool_decide_eq_true_2.
Qed.

Lemma place_other_marks d c :
  lcb_idx d ≠ trackID → on_track c (lcb_idx d) →
  ∃ c' x,
    place_other trackID hoverStrand xPos relXPos d c = Some c'
    ∧ array_get (tracks c) (lcb_idx d - 1) = Some x
    ∧ tracks c' = tracks c
    ∧ length (hoverLines c') = length (hoverLines c)
    ∧ hoverXPos c' = hoverXPos c
    ∧ marks c' (lcb_idx d)
      = placed hoverStrand xPos relXPos x d (array_get (hoverLines c) (lcb_idx d - 1))
                   (hoverBoxes c !! lcb_idx d)
    ∧ ∀ t, t ≠ lcb_idx d → marks c' t = marks c t.
Proof.
  intros Hd [[x Hx] [line Hline]].
  assert (0 ≤ lcb_idx d - 1) as Hnn.
  { apply (array_get_is_Some (hoverLines c)). by rewrite Hline. }
  eexists _, x. unfold place_other.
  rewrite bool_decide_eq_false_2 by done. rewrite Hx. simpl.
  unfold line_attr. simpl. rewrite Hline. simpl.
  split; [reflexivity|]. split; [done|]. split; [done|].
  split; [simpl; by rewrite length_insert|]. split; [done|]. split.
  - unfold marks, placed. simpl.
    rewrite !lookup_insert_eq, lookup_alter_eq.
    by rewrite array_get_insert_eq by (by rewrite Hline).
  - intros t Ht. unfold marks. simpl.
    rewrite !lookup_insert_ne by lia. rewrite lookup_alter_ne by done.
    by rewrite array_get_insert_ne by lia.
Qed.

(** The whole [each]: it does not fail, every visited region of another
    track gets its marks, and the marks of all other tracks stay. *)
Lemma each_place_other sel c :
  Forall (fun r => on_track c (lcb_idx r)) sel →
  ∃ c',
    each (place_other trackID hoverStrand xPos relXPos) sel c = Some c'
    ∧ tracks c' = tracks c
    ∧ length (hoverLines c') = length (hoverLines c)
    ∧ hoverXPos c' = hoverXPos c
    ∧ (∀ t, (∀ r, r ∈ sel → lcb_idx r ≠ trackID → lcb_idx r ≠ t) →
            marks c' t = marks c t)
    ∧ (NoDup (lcb_idx <$> sel) →
       ∀ r, r ∈ sel → lcb_idx r ≠ trackID →
         ∃ x, array_get (tracks c) (lcb_idx r - 1) = Some x
              ∧ marks c' (lcb_idx r)
                = placed hoverStrand xPos relXPos x r (array_get (hoverLines c) (lcb_idx r - 1))
                             (hoverBoxes c !! lcb_idx r)).
Proof.
  revert c. induction sel as [|d sel IH]; intros c Hon.
  - exists c. simpl. repeat split; try done.
    intros _ r Hr. by apply elem_of_nil in Hr.
  - apply Forall_cons in Hon as [Hd Hon].
    destruct (decide (lcb_idx d = trackID)) as [Hhov|Hother].
    + destruct (IH c Hon) as (c' & Hrun & Htr & Hlen & Hpos & Hstay & Hat).
      exists c'. simpl. rewrite place_other_hovered by done. simpl.
      repeat split; try done.
      * intros t Ht. apply Hstay. intros r Hr. apply Ht. by right.
      * intros Hnd r Hr Hrt. apply NoDup_cons in Hnd as [_ Hnd].
        apply elem_of_cons in Hr as [->|Hr]; [done|]. by apply Hat.
    + destruct (place_other_marks d c Hother Hd)
        as (c1 & x & Hstep & Hx & Htr1 & Hlen1 & Hpos1 & Hat1 & Hstay1).
      assert (Forall (fun r => on_track c1 (lcb_idx r)) sel) as Hon1.
      { eapply Forall_impl; [exact Hon|]. simpl. intros r.
        by apply on_track_same. }
      destruct (IH c1 Hon1) as (c' & Hrun & Htr & Hlen & Hpos & Hstay & Hat).
      exists c'. simpl. rewrite Hstep. simpl.
      split; [done|]. split; [congruence|]. split; [congruence|].
      split; [congruence|]. split.
      * intros t Ht. rewrite Hstay.
        -- apply Hstay1. intros ->. apply (Ht d); [left|done|done].
        -- intros r Hr. apply Ht. by right.
      * intros Hnd r Hr Hrt. apply NoDup_cons in Hnd as [Hfresh Hnd].
        apply elem_of_cons in Hr as [->|Hr].
        -- exists x. split; [done|]. rewrite Hstay; [done|].
           intros r Hr _ Heq. apply Hfresh. rewrite <- Heq.
           by apply list_elem_of_fmap_2.
        -- destruct (Hat Hnd r Hr Hrt) as (xr & Hxr & Hm).
           assert (lcb_idx r ≠ lcb_idx d) as Hne.
           { intros Heq. apply Hfresh. rewrite <- Heq.
             by apply list_elem_of_fmap_2. }
           exists xr. split; [congruence|]. rewrite Hm.
           pose proof (Hstay1 (lcb_idx r) Hne) as Hm1. unfold marks in Hm1.
           injection Hm1 as _ _ Hl Hb. by rewrite Hl, Hb.
Qed.

End PlaceOther.

(** ** The cursor: [mousemove] over a region *)

Section Hover.

Implicit Types (c : Cursor) (d r : Region) (t : Z) (ele : Element) (mouseX : Q).

(** The whole of [mousemove] when the pointer is over the rect of region
    [d]: the handler does not fail, the hovered track gets the snapped
    position and the offset 0, every other region of the group gets the
    marks of [place_other], and no other track is touched. *)
Lemma mousemove_region c ele d mouseX :
  tagName ele = "rect" → "region" ∈ classList ele → datum ele = Some d →
  on_track c (lcb_idx d) →
  Forall (fun r => on_track c (lcb_idx r)) (group_shapes c (groupID d)) →
  ∃ c' x,
    mousemove (Some ele) mouseX c = Some c'
    ∧ array_get (tracks c) (lcb_idx d - 1) = Some x
    ∧ hoverXPos c' = Some (snapped x mouseX)
    ∧ marks c' (lcb_idx d)
      = (Some 0%Q, Some x,
         move_line (snapped x mouseX) <$> array_get (hoverLines c) (lcb_idx d - 1),
         move_box (snapped x mouseX) <$> hoverBoxes c !! lcb_idx d)
    ∧ (NoDup (lcb_idx <$> group_shapes c (groupID d)) →
       ∀ r, r ∈ group_shapes c (groupID d) → lcb_idx r ≠ lcb_idx d →
         ∃ xr, array_get (tracks c) (lcb_idx r - 1) = Some xr
               ∧ marks c' (lcb_idx r)
                 = placed (strand d) (snapped x mouseX) (relOffset x d mouseX) xr r
                     (array_get (hoverLines c) (lcb_idx r - 1))
                     (hoverBoxes c !! lcb_idx r))
    ∧ (∀ t, t ≠ lcb_idx d →
            (∀ r, r ∈ group_shapes c (groupID d) → lcb_idx r ≠ t) →
            marks c' t = marks c t).
Proof.
  intros Htag Hcls Hd [[x Hx] [line Hline]] Hon.
  assert (0 ≤ lcb_idx d - 1) as Hnn.
  { apply (array_get_is_Some (hoverLines c)). by rewrite Hline. }
  unfold mousemove, contains.
  rewrite (bool_decide_eq_false_2 (tagName ele ≠ "rect")) by (by intros ?).
  rewrite (bool_decide_eq_true_2 _ Hcls). simpl. rewrite Hd. simpl.
  rewrite Hx. simpl. unfold line_attr. simpl. rewrite Hline. simpl.
  fold (snapped x mouseX). fold (relOffset x d mouseX).
  remember (set_hoverLCBID _ _) as c2 eqn:Hc2.
  assert (Forall (fun r => on_track c2 (lcb_idx r)) (group_shapes c (groupID d)))
    as Hon2.
  { eapply Forall_impl; [exact Hon|]. simpl. intros r.
    apply on_track_same; subst c2; [done|]. simpl. by rewrite length_insert. }
  destruct (each_place_other (lcb_idx d) (strand d) (snapped x mouseX)
              (relOffset x d mouseX) _ c2 Hon2)
    as (c3 & Hrun & Htr & Hlen & Hpos & Hstay & Hat).
  rewrite Hrun. simpl. eexists _, x. split; [reflexivity|]. split; [done|].
  split; [simpl; rewrite Hpos; by subst c2|].
  assert (marks c2 (lcb_idx d)
          = (Some 0%Q, Some x, Some (move_line (snapped x mouseX) line),
             move_box (snapped x mouseX) <$> hoverBoxes c !! lcb_idx d)) as Hm2.
  { subst c2. unfold marks. simpl. rewrite !lookup_insert_eq, lookup_alter_eq.
    by rewrite array_get_insert_eq by (by rewrite Hline). }
  assert (∀ t, t ≠ lcb_idx d → marks c2 t = marks c t) as Hm2'.
  { intros t Ht. subst c2. unfold marks. simpl.
    rewrite !lookup_insert_ne by lia. rewrite lookup_alter_ne by done.
    by rewrite array_get_insert_ne by lia. }
  split; [|split].
  - change (marks c3 (lcb_idx d) = (Some 0%Q, Some x,
       Some (move_line (snapped x mouseX) line),
       move_box (snapped x mouseX) <$> hoverBoxes c !! lcb_idx d)).
    rewrite Hstay; [exact Hm2|]. intros r _ Hne. exact Hne.
  - intros Hnd r Hr Hne. destruct (Hat Hnd r Hr Hne) as (xr & Hxr & Hm).
    exists xr. split; [by subst c2|].
    change (marks c3 (lcb_idx r)
            = placed (strand d) (snapped x mouseX) (relOffset x d mouseX) xr r
                (array_get (hoverLines c) (lcb_idx r - 1))
                (hoverBoxes c !! lcb_idx r)).
    rewrite Hm. pose proof (Hm2' (lcb_idx r) Hne) as Heq. unfold marks in Heq.
    injection Heq as _ _ Hl Hb. by rewrite Hl, Hb.
  - intros t Ht Hno. change (marks c3 t = marks c t).
    rewrite Hstay; [by apply Hm2'|]. intros r Hr _. by apply Hno.
Qed.

End Hover.

Section CursorMapping.

Implicit Types (c : Cursor) (d r : Region) (ele : Element) (mouseX : Q).

Lemma move_line_x1 p (l : Attrs) : move_line p l !! "x1" = Some p.
Proof. unfold move_line, attr. by rewrite lookup_insert_ne, lookup_insert_eq. Qed.

Lemma move_line_x2 p (l : Attrs) : move_line p l !! "x2" = Some p.
Proof. unfold move_line, attr. by rewrite lookup_insert_eq. Qed.

(** The branch on the strands, read the other way round. *)
Lemma nextXPos_of_strand hoverStrand relXPos x r :
  nextXPos_of hoverStrand relXPos x r
  = if bool_decide (strand r = hoverStrand)
    then (scale_at x (inject_Z (start r)) + relXPos)%Q
    else (scale_at x (inject_Z (end_ r)) - relXPos)%Q.
Proof. unfold nextXPos_of. repeat case_bool_decide; congruence. Qed.

(** C1 (the cursor mapping).  The pointer is over the rect of region [d],
    on a drawing where every region of the group has a track with a scale
    and a cursor line, one region per track.  Then [mousemove] succeeds and,
    for every other region [r] of the group, the cursor line of [r]'s track
    is moved to: the scale of [r]'s track at [r.start], plus [relOffset],
    when [r] has the strand of [d]; the scale of [r]'s track at [r.end],
    minus [relOffset], when the strands differ.  [relOffset] is the snapped
    pointer position minus the hovered track's scale at [d.start]. *)
Theorem mapHover_target c ele d mouseX :
  is_region ele → datum ele = Some d →
  on_track c (lcb_idx d) →
  Forall (fun r => on_track c (lcb_idx r)) (group_shapes c (groupID d)) →
  NoDup (lcb_idx <$> group_shapes c (groupID d)) →
  ∃ c' x,
    mousemove (Some ele) mouseX c = Some c'
    ∧ array_get (tracks c) (lcb_idx d - 1) = Some x
    ∧ ∀ r, r ∈ group_shapes c (groupID d) → lcb_idx r ≠ lcb_idx d →
        ∃ xr line,
          array_get (tracks c) (lcb_idx r - 1) = Some xr
          ∧ array_get (hoverLines c') (lcb_idx r - 1) = Some line
          ∧ let relOffset :=
              (scale_at x (inject_Z (Math_round (invert x mouseX)))
               - scale_at x (inject_Z (start d)))%Q in
            let targetPos :=
              if bool_decide (strand r = strand d)
              then (scale_at xr (inject_Z (start r)) + relOffset)%Q
              else (scale_at xr (inject_Z (end_ r)) - relOffset)%Q in
            line !! "x1" = Some targetPos ∧ line !! "x2" = Some targetPos.
Proof.
  intros [Htag Hcls] Hd Hhov Hon Hnd.
  destruct (mousemove_region c ele d mouseX Htag Hcls Hd Hhov Hon)
    as (c' & x & Hrun & Hx & _ & _ & Hat & _).
  exists c', x. split; [done|]. split; [done|]. intros r Hr Hne.
  destruct (Hat Hnd r Hr Hne) as (xr & Hxr & Hm).
  rewrite Forall_forall in Hon. destruct (Hon r Hr) as [_ [line0 Hline0]].
  unfold marks, placed in Hm. rewrite Hline0 in Hm. simpl in Hm.
  injection Hm as _ _ Hline _.
  exists xr, (move_line (nextXPos_of (strand d) (relOffset x d mouseX) xr r) line0).
  split; [done|]. split; [done|]. simpl.
  rewrite move_line_x1, move_line_x2, nextXPos_of_strand. done.
Qed.

Lemma example_on_tracks :
  Forall (fun r => on_track example_cursor (lcb_idx r))
         (group_shapes example_cursor (groupID example_region)).
Proof.
  apply (bool_decide_unpack (Forall _ _)). vm_compute. exact I.
Qed.

Lemma mapHover_target_witness :
  ∃ c' x,
    mousemove (Some (region_rect example_region)) (1503 # 10) example_cursor = Some c'
    ∧ array_get (tracks example_cursor) (lcb_idx example_region - 1) = Some x
    ∧ ∀ r, r ∈ group_shapes example_cursor (groupID example_region) →
        lcb_idx r ≠ lcb_idx example_region →
        ∃ xr line,
          array_get (tracks example_cursor) (lcb_idx r - 1) = Some xr
          ∧ array_get (hoverLines c') (lcb_idx r - 1) = Some line
          ∧ let relOffset :=
              (scale_at x (inject_Z (Math_round (invert x (1503 # 10))))
               - scale_at x (inject_Z (start example_region)))%Q in
            let targetPos :=
              if bool_decide (strand r = strand example_region)
              then (scale_at xr (inject_Z (start r)) + relOffset)%Q
              else (scale_at xr (inject_Z (end_ r)) - relOffset)%Q in
            line !! "x1" = Some targetPos ∧ line !! "x2" = Some targetPos.
Proof.
  apply (mapHover_target example_cursor (region_rect example_region)
           example_region (1503 # 10)).
  - split; [reflexivity|]. apply (bool_decide_unpack _). vm_compute. exact I.
  - reflexivity.
  - apply (bool_decide_unpack (on_track _ _)). vm_compute. exact I.
  - apply (bool_decide_unpack (Forall _ _)). vm_compute. exact I.
  - apply (bool_decide_unpack (NoDup _)). vm_compute. exact I.
Defined.

(** The two examples of the specification on the example drawing: the
    pointer is at base 150 of genome 1 (offset 50); genome 2 is on the
    other strand and ends at 650, so its line goes to 600; genome 3 is on
    the same strand, starts at 40 and is drawn at two pixels per base, so
    its line goes to pixel 130. *)
Example mapHover_example :
  (fun c => (hoverXPos c,
             (.!! "x1") <$> hoverLines c,
             (relativeXs c !! 0, relativeXs c !! 1, relativeXs c !! 2)))
    <$> mousemove (Some (region_rect example_region)) (1503 # 10) example_cursor
  = Some (Some 150%Q, [Some 150%Q; Some 600%Q; Some 130%Q],
          (Some 0%Q, Some (-449)%Q, Some 21%Q)).
Proof. vm_compute. reflexivity. Qed.

(** C9 (the offsets that are emitted).  In the situation of C1 the entry of
    [relativeXs] for the hovered track is 0; the entry for the track of every
    other region of the group is the hovered position, minus the position
    of that region's line, plus 1.  When the two positions coincide that
    entry is 1, not 0. *)
Theorem mapHover_offsets c ele d mouseX :
  is_region ele → datum ele = Some d →
  on_track c (lcb_idx d) →
  Forall (fun r => on_track c (lcb_idx r)) (group_shapes c (groupID d)) →
  NoDup (lcb_idx <$> group_shapes c (groupID d)) →
  ∃ c' xPos,
    mousemove (Some ele) mouseX c = Some c'
    ∧ hoverXPos c' = Some xPos
    ∧ relativeXs c' !! (lcb_idx d - 1) = Some 0%Q
    ∧ ∀ r, r ∈ group_shapes c (groupID d) → lcb_idx r ≠ lcb_idx d →
        ∃ line nextXPos diff,
          array_get (hoverLines c') (lcb_idx r - 1) = Some line
          ∧ line !! "x1" = Some nextXPos
          ∧ relativeXs c' !! (lcb_idx r - 1) = Some diff
          ∧ diff = (xPos - nextXPos + 1)%Q
          ∧ ((nextXPos == xPos)%Q → (diff == 1)%Q ∧ ¬ (diff == 0)%Q).
Proof.
  intros [Htag Hcls] Hd Hhov Hon Hnd.
  destruct (mousemove_region c ele d mouseX Htag Hcls Hd Hhov Hon)
    as (c' & x & Hrun & Hx & Hpos & Hm0 & Hat & _).
  exists c', (snapped x mouseX). split; [done|]. split; [done|]. split.
  { unfold marks in Hm0. by injection Hm0 as -> _ _ _. }
  intros r Hr Hne. destruct (Hat Hnd r Hr Hne) as (xr & Hxr & Hm).
  rewrite Forall_forall in Hon. destruct (Hon r Hr) as [_ [line0 Hline0]].
  unfold marks, placed in Hm. rewrite Hline0 in Hm. simpl in Hm.
  injection Hm as Hrel _ Hline _.
  eexists _, (nextXPos_of (strand d) (relOffset x d mouseX) xr r), _.
  split; [exact Hline|]. split; [apply move_line_x1|].
  split; [exact Hrel|]. split; [done|].
  intros Heq. rewrite Heq. split.
  - ring.
  - intros H0.
    assert (snapped x mouseX - snapped x mouseX + 1 == 1)%Q as H1 by ring.
    rewrite H0 in H1. discriminate H1.
Qed.

Lemma mapHover_offsets_witness :
  ∃ c' xPos,
    mousemove (Some (region_rect example_region)) (1503 # 10) example_cursor = Some c'
    ∧ hoverXPos c' = Some xPos
    ∧ relativeXs c' !! (lcb_idx example_region - 1) = Some 0%Q
    ∧ ∀ r, r ∈ group_shapes example_cursor (groupID example_region) →
        lcb_idx r ≠ lcb_idx example_region →
        ∃ line nextXPos diff,
          array_get (hoverLines c') (lcb_idx r - 1) = Some line
          ∧ line !! "x1" = Some nextXPos
          ∧ relativeXs c' !! (lcb_idx r - 1) = Some diff
          ∧ diff = (xPos - nextXPos + 1)%Q
          ∧ ((nextXPos == xPos)%Q → (diff == 1)%Q ∧ ¬ (diff == 0)%Q).
Proof.
  apply (mapHover_offsets example_cursor (region_rect example_region)
           example_region (1503 # 10)).
  - split; [reflexivity|]. apply (bool_decide_unpack _). vm_compute. exact I.
  - reflexivity.
  - apply (bool_decide_unpack (on_track _ _)). vm_compute. exact I.
  - apply (bool_decide_unpack (Forall _ _)). vm_compute. exact I.
  - apply (bool_decide_unpack (NoDup _)). vm_compute. exact I.
Defined.

End CursorMapping.

Section OffRegion.

Implicit Types (c : Cursor) (mouseX : Q).

Lemma hide_cursors_hidden c : cursors_hidden (hide_cursors c).
Proof.
  unfold cursors_hidden, hide_cursors. simpl. split.
  - rewrite Forall_fmap, Forall_forall. intros l _. simpl.
    unfold attr. apply lookup_insert_eq.
  - intros i b Hb. apply lookup_fmap_Some in Hb as (b0 & <- & _).
    unfold attr. apply lookup_insert_eq.
Qed.

(** C6, as the code has it.  When the pointer is over no element, or over
    an element that is not the rect of a region, [mousemove] writes nothing
    to what a click reports: the hovered track, group and position and the
    per-track [relativeXs] and [scales] are what they were, so they are
    empty only if no region was hovered before.  Unless the element is
    missing, a cursor line or a hover box, all cursor lines and hover boxes
    are made transparent. *)
Theorem hover_off_region c (target : option Element) mouseX :
  (∀ ele, target = Some ele → ¬ is_region ele) →
  ∃ c',
    mousemove target mouseX c = Some c'
    ∧ click c' = click c
    ∧ relativeXs c' = relativeXs c
    ∧ scales c' = scales c
    ∧ (∀ ele, target = Some ele →
         "cursor-line" ∉ classList ele → "hover-box" ∉ classList ele →
         cursors_hidden c').
Proof.
  intros Hno. destruct target as [ele|]; simpl.
  2:{ exists c. do 4 (split; [done|]). intros ? [=]. }
  specialize (Hno ele eq_refl). unfold contains.
  assert (bool_decide (tagName ele ≠ "rect")
          || negb (bool_decide ("region" ∈ classList ele)) = true) as ->.
  { destruct (decide (tagName ele = "rect")) as [Ht|Ht].
    - rewrite (bool_decide_eq_false_2 ("region" ∈ classList ele)).
      + by rewrite orb_true_r.
      + intros Hc. by apply Hno.
    - by rewrite (bool_decide_eq_true_2 _ Ht). }
  destruct (decide ("cursor-line" ∈ classList ele)) as [Hl|Hl].
  { rewrite (bool_decide_eq_true_2 _ Hl). simpl. exists c.
    do 4 (split; [done|]). intros ? [= <-] Hl' _. done. }
  rewrite (bool_decide_eq_false_2 _ Hl). simpl.
  destruct (decide ("hover-box" ∈ classList ele)) as [Hb|Hb].
  { rewrite (bool_decide_eq_true_2 _ Hb). exists c.
    do 4 (split; [done|]). intros ? [= <-] _ Hb'. done. }
  rewrite (bool_decide_eq_false_2 _ Hb). exists (hide_cursors c).
  do 4 (split; [done|]). intros _ _ _ _. apply hide_cursors_hidden.
Qed.

Lemma hover_off_region_witness :
  ∃ c',
    mousemove (Some background) 400%Q example_cursor = Some c'
    ∧ click c' = click example_cursor
    ∧ relativeXs c' = relativeXs example_cursor
    ∧ scales c' = scales example_cursor
    ∧ (∀ ele, Some background = Some ele →
         "cursor-line" ∉ classList ele → "hover-box" ∉ classList ele →
         cursors_hidden c').
Proof.
  apply (hover_off_region example_cursor (Some background) 400%Q).
  intros ele [= <-]. unfold is_region. simpl. intros [Htag _]. discriminate Htag.
Defined.

(** C6 as stated fails once a region has been hovered: the pointer is over
    genome 1 in the first block, leaves the rect, and moves on over the
    background.  The three offsets written by the first event are still
    there, and a click reports them. *)
Lemma hover_off_region_counterexample :
  ¬ is_region background
  ∧ (c ← mousemove (Some (region_rect example_region)) (1503 # 10) example_cursor;
     c ← mousemove (Some background) 400%Q (mouseout false c);
     Some (relativeXs c !! 0, relativeXs c !! 1, relativeXs c !! 2,
           size (click_relativeXs (click c)), size (click_scales (click c)),
           click_trackID (click c), click_lcbID (click c)))
    = Some (Some 0%Q, Some (-449)%Q, Some 21%Q, 3%nat, 3%nat, Some 1, Some 0).
Proof.
  split.
  - unfold is_region. simpl. intros [Htag _]. discriminate Htag.
  - vm_compute. reflexivity.
Qed.

End OffRegion.

(** ** Loading: [getGenomeRegions] *)

Section Load.

Implicit Types (g n t : Z) (lcb : LCB) (d : list LCB) (m : gmap Z (list Z)).

Lemma table_push_row index regionID m t :
  track_row (table_push index regionID m) t
  = track_row m t ++ (if bool_decide (index = t) then [regionID] else []).
Proof.
  unfold track_row, table_push. case_bool_decide as Ht.
  - subst t. destruct (m !! index) as [l|] eqn:Hl; by rewrite lookup_insert_eq.
  - rewrite app_nil_r.
    destruct (m !! index) as [l|] eqn:Hl; by rewrite lookup_insert_ne.
Qed.

Lemma table_push_no_empty index regionID m :
  (∀ t, m !! t ≠ Some []) → ∀ t, table_push index regionID m !! t ≠ Some [].
Proof.
  intros Hm t. unfold table_push.
  destruct (m !! index) as [l|] eqn:Hl.
  - destruct (decide (index = t)) as [->|Hne].
    + rewrite lookup_insert_eq. intros [= Heq]. by destruct l.
    + rewrite lookup_insert_ne by done. apply Hm.
  - destruct (decide (index = t)) as [->|Hne].
    + by rewrite lookup_insert_eq.
    + rewrite lookup_insert_ne by done. apply Hm.
Qed.

Lemma load_lcb_spec g lcb n m :
  ∃ lcb' m',
    load_lcb g lcb n m = (lcb', n + Z.of_nat (length lcb), m')
    ∧ id_ <$> lcb' = seqZ (n + 1) (Z.of_nat (length lcb))
    ∧ Forall (fun r => groupID r = g) lcb'
    ∧ content <$> lcb' = content <$> lcb
    ∧ (∀ t, track_row m' t
            = track_row m t ++ (id_ <$> filter (fun r => lcb_idx r = t) lcb'))
    ∧ ((∀ t, m !! t ≠ Some []) → ∀ t, m' !! t ≠ Some []).
Proof.
  revert n m. induction lcb as [|r rest IH]; intros n m.
  - exists [], m. simpl. rewrite Z.add_0_r.
    repeat split; try done. intros t. by rewrite app_nil_r.
  - simpl load_lcb.
    destruct (IH (n + 1) (table_push (lcb_idx r) (n + 1) m))
      as (rest' & m' & Hrun & Hids & Hg & Hc & Hrow & Hne).
    exists (set_groupID g (set_id (n + 1) r) :: rest'), m'.
    simpl lcb_idx. rewrite Hrun. split.
    { f_equal. f_equal. simpl length. lia. }
    split.
    { simpl length. rewrite seqZ_cons by lia. rewrite fmap_cons, Hids.
      f_equal. f_equal; lia. }
    split; [by constructor|]. split.
    { by rewrite !fmap_cons, Hc. }
    split.
    + intros t. rewrite Hrow, table_push_row, filter_cons. simpl lcb_idx.
      rewrite <- app_assoc. f_equal.
      destruct (decide (lcb_idx r = t)) as [Ht|Ht].
      * by rewrite (bool_decide_eq_true_2 _ Ht).
      * by rewrite (bool_decide_eq_false_2 _ Ht).
    + intros Hm. apply Hne. by apply table_push_no_empty.
Qed.

Lemma load_lcbs_spec g d n m :
  0 ≤ g →
  ∃ d' m',
    load_lcbs g d n m = (d', n + Z.of_nat (length (concat d)), m')
    ∧ id_ <$> concat d' = seqZ (n + 1) (Z.of_nat (length (concat d)))
    ∧ (∀ (i : nat) lcb, d' !! i = Some lcb →
         Forall (fun r => groupID r = g + Z.of_nat i) lcb)
    ∧ map (map content) d' = map (map content) d
    ∧ (∀ t, track_row m' t = track_row m t ++ track_ids t d')
    ∧ ((∀ t, m !! t ≠ Some []) → ∀ t, m' !! t ≠ Some []).
Proof.
  revert g n m. induction d as [|lcb d IH]; intros g n m Hg.
  - exists [], m. simpl. rewrite Z.add_0_r. repeat split; try done.
    intros t. unfold track_ids. simpl. by rewrite app_nil_r.
  - simpl load_lcbs.
    destruct (load_lcb_spec g lcb n m)
      as (lcb' & m1 & Hrun1 & Hids1 & Hg1 & Hc1 & Hrow1 & Hne1).
    rewrite Hrun1.
    destruct (IH (g + 1) (n + Z.of_nat (length lcb)) m1 ltac:(lia))
      as (d' & m' & Hrun & Hids & Hgs & Hc & Hrow & Hne).
    rewrite Hrun. exists (lcb' :: d'), m'.
    assert (length lcb' = length lcb) as Hlen.
    { by rewrite <- (length_fmap content lcb'), Hc1, length_fmap. }
    split.
    { f_equal. f_equal. simpl. rewrite length_app. lia. }
    split.
    { simpl concat. rewrite fmap_app, Hids1, Hids, length_app, Nat2Z.inj_add.
      rewrite seqZ_app by lia. f_equal. f_equal. lia. }
    split.
    { intros [|i] lcb0 Hl; simpl in Hl.
      - injection Hl as <-. eapply Forall_impl; [exact Hg1|].
        simpl. intros; lia.
      - eapply Forall_impl; [exact (Hgs i lcb0 Hl)|]. simpl. intros; lia. }
    split.
    { simpl. f_equal; [exact Hc1|exact Hc]. }
    split.
    + intros t. rewrite Hrow, Hrow1. unfold track_ids. simpl concat.
      by rewrite filter_app, fmap_app, app_assoc.
    + intros Hm. apply Hne. by apply Hne1.
Qed.

End Load.

(** ** Invariants of a session *)

Section Session.

Implicit Types (a b t : Z) (lcb : LCB) (d : list LCB) (v : MauveViewer)
  (m : gmap Z (list Z)).

(** Everything [getGenomeRegions] does, from an empty table. *)
Lemma getGenomeRegions_spec d :
  ∃ d' regions,
    getGenomeRegions d = (d', Z.of_nat (length (concat d)), regions)
    ∧ id_ <$> concat d' = seqZ 1 (Z.of_nat (length (concat d)))
    ∧ grouped d'
    ∧ map (map content) d' = map (map content) d
    ∧ (∀ t, track_row regions t = track_ids t d')
    ∧ (∀ t, regions !! t ≠ Some []).
Proof.
  destruct (load_lcbs_spec 0 d 0 ∅ ltac:(lia))
    as (d' & m' & Hrun & Hids & Hg & Hc & Hrow & Hne).
  exists d', m'. unfold getGenomeRegions. rewrite Hrun.
  split; [done|]. split; [exact Hids|]. split; [|split; [exact Hc|split]].
  - intros i lcb Hl. eapply Forall_impl; [exact (Hg i lcb Hl)|].
    simpl. intros; lia.
  - intros t. rewrite Hrow. unfold track_row. by rewrite lookup_empty.
  - apply Hne. intros t. by rewrite lookup_empty.
Qed.

(** X1 ([getGenomeRegions] numbers the regions).  The regions get the ids
    1, 2, ... in document order and the index of their group as [groupID];
    the count that is returned is the number of regions; name, coordinates,
    strand, track index and hidden flag of every region are left alone. *)
Theorem getGenomeRegions_numbers d :
  ∃ d' regions,
    getGenomeRegions d = (d', Z.of_nat (length (concat d)), regions)
    ∧ id_ <$> concat d' = seqZ 1 (Z.of_nat (length (concat d)))
    ∧ grouped d'
    ∧ map (map content) d' = map (map content) d.
Proof.
  destruct (getGenomeRegions_spec d) as (d' & m & H1 & H2 & H3 & H4 & _).
  by exists d', m.
Qed.

(** An induction principle for sessions. *)
Lemma run_invariant (P : MauveViewer → Prop) :
  (∀ op v, P v → P (apply_op op v)) → ∀ ops v, P v → P (run ops v).
Proof.
  intros Hstep ops. induction ops as [|op ops IH]; intros v Hv; simpl; [done|].
  apply IH. by apply Hstep.
Qed.

Lemma same_groups_run ops v : same_groups (data v) (data (run ops v)).
Proof.
  revert v. induction ops as [|op ops IH]; intros v; simpl.
  - apply same_groups_refl.
  - eapply same_groups_trans; [apply same_groups_apply_op|apply IH].
Qed.

Lemma same_groups_grouped d d' : same_groups d d' → grouped d → grouped d'.
Proof.
  unfold same_groups, grouped. intros Hsame Hg i lcb' Hl.
  destruct (Forall2_lookup_r _ _ _ _ _ Hsame Hl) as (lcb & Hl0 & Hperm).
  specialize (Hg i lcb Hl0). rewrite Forall_forall in *. intros r' Hr'.
  assert (frame r' ∈ frame <$> lcb) as Hin.
  { rewrite Hperm. by apply list_elem_of_fmap_2. }
  apply list_elem_of_fmap in Hin as (r & Heq & Hr).
  specialize (Hg r Hr). unfold frame in Heq. congruence.
Qed.

Lemma same_groups_ids d d' :
  same_groups d d' → id_ <$> concat d ≡ₚ id_ <$> concat d'.
Proof.
  unfold same_groups. induction 1 as [|g g' d d' Hperm _ IH]; simpl; [done|].
  rewrite !fmap_app, IH. apply Permutation_app_tail.
  assert (id_ <$> g = (fun f => f.1.2) <$> (frame <$> g)) as ->.
  { rewrite <- list_fmap_compose. by apply list_fmap_ext. }
  assert (id_ <$> g' = (fun f => f.1.2) <$> (frame <$> g')) as ->.
  { rewrite <- list_fmap_compose. by apply list_fmap_ext. }
  by rewrite Hperm.
Qed.

(** X2 (ids and group indices in a session).  After [init], and after any
    sequence of operations, every region still carries the index of the
    group it is in, and the ids of the regions are the numbers 1 to N, each
    once. *)
Theorem session_ids d ops :
  grouped (data (run ops (init d)))
  ∧ id_ <$> concat (data (run ops (init d)))
    ≡ₚ seqZ 1 (Z.of_nat (length (concat d)))
  ∧ NoDup (id_ <$> concat (data (run ops (init d)))).
Proof.
  destruct (getGenomeRegions_spec d)
    as (d' & m & Hload & Hids & Hg & _ & _ & _).
  assert (same_groups d' (data (run ops (init d)))) as Hsame.
  { unfold init. rewrite Hload.
    eapply same_groups_trans; [|apply same_groups_run].
    apply same_groups_setReference with (v := mkViewer d' m _ []). }
  assert (id_ <$> concat (data (run ops (init d)))
          ≡ₚ seqZ 1 (Z.of_nat (length (concat d)))) as Hperm.
  { rewrite <- Hids. symmetry. by apply same_groups_ids. }
  split; [by eapply same_groups_grouped|]. split; [done|].
  rewrite Hperm. apply NoDup_seqZ.
Qed.

End Session.

(** ** The per-track table and the groups *)

Section Table.

Implicit Types (a b t : Z) (lcb : LCB) (d : list LCB) (v : MauveViewer)
  (m : gmap Z (list Z)).

(** The ids of a track in a group depend on the track indices and ids of
    the group only. *)
Lemma filter_ids_ext t lcb lcb' :
  (fun r => (lcb_idx r, id_ r)) <$> lcb' = (fun r => (lcb_idx r, id_ r)) <$> lcb →
  id_ <$> filter (fun r => lcb_idx r = t) lcb'
  = id_ <$> filter (fun r => lcb_idx r = t) lcb.
Proof.
  revert lcb'. induction lcb as [|r lcb IH]; intros [|r' lcb'] Heq;
    try done.
  rewrite !fmap_cons in Heq. injection Heq as Hi Hk Hrest.
  rewrite !filter_cons. rewrite Hi.
  destruct (decide (lcb_idx r = t)); rewrite ?fmap_cons, (IH lcb') by done;
    congruence.
Qed.

Lemma track_ids_ext t (f : LCB → LCB) d :
  (∀ lcb, (fun r => (lcb_idx r, id_ r)) <$> f lcb
          = (fun r => (lcb_idx r, id_ r)) <$> lcb) →
  track_ids t (map f d) = track_ids t d.
Proof.
  intros Hf. unfold track_ids. induction d as [|lcb d IH]; simpl; [done|].
  rewrite !filter_app, !fmap_app, IH. f_equal. by apply filter_ids_ext.
Qed.

Lemma keys_fmap_ext (f : Region → Region) lcb :
  (∀ r, lcb_idx (f r) = lcb_idx r ∧ id_ (f r) = id_ r) →
  (fun r => (lcb_idx r, id_ r)) <$> (f <$> lcb)
  = (fun r => (lcb_idx r, id_ r)) <$> lcb.
Proof.
  intros Hf. rewrite <- list_fmap_compose. apply list_fmap_ext.
  intros ? r _. simpl. destruct (Hf r) as [-> ->]. done.
Qed.

Lemma keys_setReference_lcb t lcb :
  (fun r => (lcb_idx r, id_ r)) <$> setReference_lcb t lcb
  = (fun r => (lcb_idx r, id_ r)) <$> lcb.
Proof.
  rewrite setReference_lcb_eq. destruct (ref_not_plusb t lcb); [|done].
  apply (keys_fmap_ext (reorient t)). intros r. unfold reorient.
  by case_bool_decide.
Qed.

Lemma swapTrack_table_lookup a b m t :
  swapTrack_table a b m !! t = m !! swap_idx a b t.
Proof.
  unfold swapTrack_table, obj_write, swap_idx.
  rewrite !lookup_partial_alter.
  repeat (case_decide; repeat case_bool_decide; subst; try done);
    congruence.
Qed.

Lemma filter_ids_relabel a b t lcb :
  id_ <$> filter (fun r => lcb_idx r = t) (relabel a b lcb)
  = id_ <$> filter (fun r => lcb_idx r = swap_idx a b t) lcb.
Proof.
  unfold relabel. induction lcb as [|r lcb IH]; [done|].
  change (map (relabel_region a b) (r :: lcb))
    with (relabel_region a b r :: map (relabel_region a b) lcb).
  rewrite !filter_cons, lcb_idx_relabel_region.
  assert (id_ (relabel_region a b r) = id_ r) as Hid.
  { unfold relabel_region. by repeat case_bool_decide. }
  destruct (decide (swap_idx a b (lcb_idx r) = t)) as [Ht|Ht].
  - rewrite decide_True by (by rewrite <- Ht, swap_idx_involutive).
    by rewrite !fmap_cons, IH, Hid.
  - rewrite decide_False; [done|].
    intros Heq. apply Ht. by rewrite Heq, swap_idx_involutive.
Qed.

Lemma track_ids_swapBackbones a b t d :
  track_ids t (swapBackbones_data a b d) = track_ids (swap_idx a b t) d.
Proof.
  unfold track_ids, swapBackbones_data.
  induction d as [|lcb d IH]; simpl; [done|].
  rewrite !filter_app, !fmap_app, IH. f_equal.
  unfold swapBackbones_lcb, by_lcb_idx.
  rewrite (array_sort_filter lcb_idx t). apply filter_ids_relabel.
Qed.

Lemma table_agrees_apply_op op v : table_agrees v → table_agrees (apply_op op v).
Proof.
  intros [Hrow Hne].
  assert (∀ a b, table_agrees (swap a b v)) as Hswap.
  { intros a b. split; intros t; simpl.
    - unfold track_row. rewrite swapTrack_table_lookup.
      rewrite track_ids_swapBackbones. apply Hrow.
    - rewrite swapTrack_table_lookup. apply Hne. }
  destruct op as [t|t|t|a b|t|t]; simpl apply_op.
  - split; [|done]. intros t0. simpl. unfold setReference_data.
    rewrite track_ids_ext by apply keys_setReference_lcb. apply Hrow.
  - unfold moveTrackUp. case_bool_decide; [done|apply Hswap].
  - unfold moveTrackDown. case_bool_decide; [done|apply Hswap].
  - apply Hswap.
  - split; [|done]. intros t0. simpl. rewrite track_ids_ext; [apply Hrow|].
    intros lcb. apply (keys_fmap_ext (mark_hidden t)). intros r.
    unfold mark_hidden. by case_bool_decide.
  - split; [|done]. intros t0. simpl. rewrite track_ids_ext; [apply Hrow|].
    intros lcb. apply (keys_fmap_ext (clear_hidden t)). intros r.
    unfold clear_hidden. by case_bool_decide.
Qed.

Lemma table_agrees_init d : table_agrees (init d).
Proof.
  destruct (getGenomeRegions_spec d)
    as (d' & m & Hload & _ & _ & _ & Hrow & Hne).
  unfold init. rewrite Hload. split; [|done]. intros t. simpl.
  unfold setReference_data.
  rewrite track_ids_ext by apply keys_setReference_lcb. apply Hrow.
Qed.

(** X3 (the table follows the groups).  After [init] and after any sequence
    of operations, the table has a row for track [t] exactly when some
    region is on track [t], and the row lists the regions of track [t], by
    id, in the order of the groups. *)
Theorem session_table_agrees d ops (t : Z) :
  genomeRegions (run ops (init d)) !! t
  = if decide (track_ids t (data (run ops (init d))) = [])
    then None else Some (track_ids t (data (run ops (init d)))).
Proof.
  assert (table_agrees (run ops (init d))) as [Hrow Hne].
  { apply run_invariant; [apply table_agrees_apply_op|apply table_agrees_init]. }
  specialize (Hrow t). specialize (Hne t). unfold track_row in Hrow.
  destruct (genomeRegions (run ops (init d)) !! t) as [l|] eqn:Hl;
    simpl in Hrow; rewrite <- Hrow.
  - rewrite decide_False; [done|]. intros ->. by apply Hne.
  - by rewrite decide_True.
Qed.

End Table.

(** ** Reorientation: what it reaches and what it keeps *)

Section Orientation.

Implicit Types (a b t : Z) (lcb : LCB) (d : list LCB) (r : Region)
  (v : MauveViewer).

(** X4 (the reference is forward).  After [setReference t] every region of
    track [t], in every group, has strand ['+'], whatever the strands were. *)
Theorem setReference_reference_plus t v :
  Forall (Forall (fun r => lcb_idx r = t → strand r = "+"))
         (data (setReference t v)).
Proof.
  simpl. unfold setReference_data. rewrite Forall_fmap, Forall_forall.
  intros lcb _. simpl. rewrite Forall_forall. intros r Hr Ht.
  by apply (proj1 (ref_not_plusb_false t (setReference_lcb t lcb))
              (setReference_lcb_positive t lcb) r).
Qed.

(** In a well-formed group that is flipped, every member is toggled, the
    reference member included: it was ['-']. *)
Lemma reorient_all_toggled t lcb :
  plus_minus lcb → one_per_track lcb → ref_not_plusb t lcb = true →
  map (reorient t) lcb = map (fun r => set_strand (toggle (strand r)) r) lcb.
Proof.
  intros Hpm Hone Hflip. apply ref_not_plusb_spec in Hflip as (r0 & Hin0 & Hid0 & Hs0).
  apply map_ext_in. intros r Hr. apply list_elem_of_In in Hr.
  unfold reorient. case_bool_decide as Ht; [|done].
  assert (r = r0) as -> by (apply (one_per_track_inj lcb); congruence).
  unfold plus_minus in Hpm. rewrite Forall_forall in Hpm.
  destruct (Hpm r0 Hin0) as [Hp|Hm]; [done|]. by rewrite Hm.
Qed.

Lemma toggle_inj s1 s2 :
  (s1 = "+" ∨ s1 = "-") → (s2 = "+" ∨ s2 = "-") →
  toggle s1 = toggle s2 → s1 = s2.
Proof. intros [-> | ->] [-> | ->]; done. Qed.

(** X5 (reorientation does not move a cursor).  In a well-formed region
    set, the position that the cursor mapping computes for a region [r]
    from a hovered region [h] of the same group is the same before and
    after [setReference]: the two regions are on the same strand afterwards
    exactly when they were before, and their coordinates are untouched. *)
Theorem setReference_keeps_mapping t v (g i j : nat) lcb lcb' h r h' r'
    (relXPos : Q) (x : Scale) :
  well_formed (data v) →
  data v !! g = Some lcb → lcb !! i = Some h → lcb !! j = Some r →
  data (setReference t v) !! g = Some lcb' →
  lcb' !! i = Some h' → lcb' !! j = Some r' →
  (strand h' = strand r' ↔ strand h = strand r)
  ∧ start r' = start r ∧ end_ r' = end_ r
  ∧ nextXPos_of (strand h') relXPos x r' = nextXPos_of (strand h) relXPos x r.
Proof.
  intros Hwf Hg Hi Hj Hg' Hi' Hj'.
  unfold well_formed in Hwf. rewrite Forall_forall in Hwf.
  destruct (Hwf lcb) as [Hpm Hone]; [by eapply list_elem_of_lookup_2|].
  simpl in Hg'. unfold setReference_data in Hg'.
  rewrite list_lookup_fmap, Hg in Hg'. injection Hg' as <-.
  rewrite setReference_lcb_eq in Hi', Hj'.
  destruct (ref_not_plusb t lcb) eqn:Hflip.
  - rewrite reorient_all_toggled in Hi', Hj' by done.
    rewrite list_lookup_fmap, Hi in Hi'. rewrite list_lookup_fmap, Hj in Hj'.
    injection Hi' as <-. injection Hj' as <-.
    unfold plus_minus in Hpm. rewrite Forall_forall in Hpm.
    pose proof (Hpm h ltac:(by eapply list_elem_of_lookup_2)) as Hd.
    pose proof (Hpm r ltac:(by eapply list_elem_of_lookup_2)) as Hr.
    assert (toggle (strand h) = toggle (strand r) ↔ strand h = strand r) as Hiff.
    { split; [by apply toggle_inj|by intros ->]. }
    split; [exact Hiff|]. split; [done|]. split; [done|].
    unfold nextXPos_of. simpl.
    destruct (decide (strand h = strand r)) as [Heq|Hne].
    + rewrite !bool_decide_eq_false_2; [done|by intros ?|].
      intros Hn. apply Hn. by apply Hiff.
    + rewrite !bool_decide_eq_true_2; [done|done|].
      intros Heq. apply Hne. by apply Hiff.
  - assert (h' = h) as -> by congruence. assert (r' = r) as -> by congruence.
    done.
Qed.

Lemma setReference_keeps_mapping_witness :
  (strand (mkRegion "g2" 700 800 "+" 2 4 1 false)
   = strand (mkRegion "g3" 300 400 "-" 3 5 1 false)
   ↔ strand (mkRegion "g2" 700 800 "-" 2 4 1 false) = strand example_region2)
  ∧ start (mkRegion "g3" 300 400 "-" 3 5 1 false) = start example_region2
  ∧ end_ (mkRegion "g3" 300 400 "-" 3 5 1 false) = end_ example_region2
  ∧ nextXPos_of (strand (mkRegion "g2" 700 800 "+" 2 4 1 false)) 50%Q (zoomed 2)
      (mkRegion "g3" 300 400 "-" 3 5 1 false)
    = nextXPos_of (strand (mkRegion "g2" 700 800 "-" 2 4 1 false)) 50%Q (zoomed 2)
        example_region2.
Proof.
  apply (setReference_keeps_mapping 2 example_viewer 1 0 1
           [ mkRegion "g2" 700 800 "-" 2 4 1 false; example_region2 ]
           [ mkRegion "g2" 700 800 "+" 2 4 1 false;
             mkRegion "g3" 300 400 "-" 3 5 1 false ]).
  - apply (bool_decide_unpack (well_formed _)). vm_compute. exact I.
  - vm_compute. reflexivity.
  - reflexivity.
  - reflexivity.
  - vm_compute. reflexivity.
  - reflexivity.
  - reflexivity.
Defined.

End Orientation.

(** ** How the operations compose *)

Section Composition.

Implicit Types (a b t id : Z) (lcb : LCB) (d : list LCB) (r : Region)
  (v : MauveViewer).

Lemma relabel_region_sym a b r : relabel_region a b r = relabel_region b a r.
Proof.
  destruct r. unfold relabel_region. simpl.
  repeat (case_bool_decide; simpl in * ); subst; done.
Qed.

Lemma swapTrack_table_sym a b (m : gmap Z (list Z)) :
  swapTrack_table a b m = swapTrack_table b a m.
Proof.
  apply map_eq. intros t. rewrite !swapTrack_table_lookup. f_equal.
  unfold swap_idx. repeat case_bool_decide; congruence.
Qed.

Lemma swap_flip a b v : swap a b v = swap b a v.
Proof.
  unfold swap, swapBackbones, swapTrack, swapBackbones_data. simpl.
  rewrite (swapTrack_table_sym a b). f_equal. apply map_ext. intros lcb.
  unfold swapBackbones_lcb, relabel. f_equal. apply map_ext.
  apply relabel_region_sym.
Qed.

Lemma relabel_region_same a r : relabel_region a a r = r.
Proof.
  destruct r. unfold relabel_region. simpl.
  repeat (case_bool_decide; simpl in * ); subst; done.
Qed.

(** X6 (a swap has no direction).  [swap a b] and [swap b a] are the same
    operation, on the groups and on the per-track table; swapping a track
    with itself relabels nothing and only sorts every group by track
    index. *)
Theorem swap_sym a b v :
  swap a b v = swap b a v
  ∧ swap a a v
    = mkViewer (map (array_sort by_lcb_idx) (data v)) (genomeRegions v)
               (trackCount v) (hiddenTracks v).
Proof.
  split; [apply swap_flip|].
  unfold swap, swapBackbones, swapTrack, swapBackbones_data. simpl. f_equal.
  - apply map_ext. intros lcb. unfold swapBackbones_lcb, relabel. f_equal.
    rewrite <- (map_id lcb) at 2. apply map_ext. apply relabel_region_same.
  - apply map_eq. intros t. rewrite swapTrack_table_lookup. f_equal.
    unfold swap_idx. by repeat case_bool_decide.
Qed.

(** X7 (down, then up).  Moving a track down and then moving it back up
    from its new place restores the viewer, when the move is within the
    tracks and the groups are in ascending track order. *)
Theorem moveTrackDown_Up id v :
  id + 1 ≤ trackCount v → 1 ≤ id → Forall ascending (data v) →
  moveTrackUp (id + 1) (moveTrackDown id v) = v.
Proof.
  intros Hmax Hmin Hasc. unfold moveTrackDown.
  rewrite bool_decide_eq_false_2 by lia. unfold moveTrackUp.
  rewrite bool_decide_eq_false_2 by lia.
  replace (id + 1 - 1) with id by lia.
  rewrite (swap_flip (id + 1) id), double_swap_sorts.
  destruct v as [d g n h]. simpl in *. f_equal.
  rewrite <- (map_id d) at 2. apply map_ext_in. intros lcb Hin.
  apply list_elem_of_In in Hin. rewrite Forall_forall in Hasc.
  apply (array_sort_id lcb_idx). by apply Hasc.
Qed.

Lemma moveTrackDown_Up_witness :
  moveTrackUp (2 + 1) (moveTrackDown 2 example_viewer) = example_viewer.
Proof.
  apply (moveTrackDown_Up 2 example_viewer).
  - vm_compute. discriminate.
  - lia.
  - apply (bool_decide_unpack (Forall ascending _)). vm_compute. exact I.
Defined.

Lemma array_sort_ext {A} (c1 c2 : A → A → Z) (l : list A) :
  (∀ x y, c1 x y = c2 x y) → array_sort c1 l = array_sort c2 l.
Proof.
  intros Hc. induction l as [|x l IH]; simpl; [done|]. rewrite IH.
  generalize (array_sort c2 l). intros k.
  induction k as [|y k IHk]; simpl; [done|]. by rewrite Hc, IHk.
Qed.

(** Sorting by track index commutes with an update that keeps the index. *)
Lemma array_sort_fmap_idx (f : Region → Region) lcb :
  (∀ r, lcb_idx (f r) = lcb_idx r) →
  array_sort by_lcb_idx (map f lcb) = map f (array_sort by_lcb_idx lcb).
Proof.
  intros Hf. unfold by_lcb_idx. rewrite array_sort_fmap. f_equal.
  apply array_sort_ext. intros x y. unfold key_compare. simpl.
  by rewrite !Hf.
Qed.

Lemma ref_not_plusb_perm t lcb lcb' :
  lcb ≡ₚ lcb' → ref_not_plusb t lcb = ref_not_plusb t lcb'.
Proof.
  intros Hp. apply eq_true_iff_eq. rewrite !ref_not_plusb_spec.
  unfold ref_not_plus. by setoid_rewrite Hp.
Qed.

Lemma ref_not_plusb_relabel a b t lcb :
  ref_not_plusb (swap_idx a b t) (relabel a b lcb) = ref_not_plusb t lcb.
Proof.
  apply eq_true_iff_eq. rewrite !ref_not_plusb_spec. unfold ref_not_plus, relabel.
  assert (∀ r, strand (relabel_region a b r) = strand r) as Hs.
  { intros r. unfold relabel_region. by repeat case_bool_decide. }
  split.
  - intros (r' & Hin & Hid & Hstr).
    apply list_elem_of_fmap in Hin as (r & -> & Hin).
    exists r. rewrite lcb_idx_relabel_region, swap_idx_inj in Hid.
    by rewrite Hs in Hstr.
  - intros (r & Hin & Hid & Hstr). exists (relabel_region a b r).
    split; [by apply list_elem_of_fmap_2|].
    by rewrite lcb_idx_relabel_region, Hs, Hid.
Qed.

Lemma reorient_relabel_region a b t r :
  reorient (swap_idx a b t) (relabel_region a b r)
  = relabel_region a b (reorient t r).
Proof.
  unfold reorient. rewrite lcb_idx_relabel_region.
  destruct (decide (lcb_idx r = t)) as [Ht|Ht].
  - rewrite !bool_decide_eq_true_2 by (done || by rewrite Ht).
    destruct r. unfold relabel_region. simpl.
    by repeat case_bool_decide.
  - rewrite !bool_decide_eq_false_2 by (done || by rewrite swap_idx_inj).
    destruct r. unfold relabel_region. simpl.
    by repeat case_bool_decide.
Qed.

Lemma swapBackbones_setReference_lcb a b t lcb :
  swapBackbones_lcb a b (setReference_lcb t lcb)
  = setReference_lcb (swap_idx a b t) (swapBackbones_lcb a b lcb).
Proof.
  rewrite !setReference_lcb_eq. unfold swapBackbones_lcb at 2 3.
  rewrite (ref_not_plusb_perm _ _ _ (array_sort_perm by_lcb_idx (relabel a b lcb))).
  rewrite ref_not_plusb_relabel.
  destruct (ref_not_plusb t lcb); [|done].
  unfold swapBackbones_lcb.
  rewrite <- (array_sort_fmap_idx (reorient (swap_idx a b t)))
    by apply lcb_idx_reorient.
  f_equal. unfold relabel. rewrite !map_map. apply map_ext. intros r.
  symmetry. apply reorient_relabel_region.
Qed.

(** X8 (the reference follows its track).  Making track [t] the reference
    and then swapping two tracks gives the same viewer as swapping first
    and then making the reference the track that [t] has become. *)
Theorem swap_setReference a b t v :
  swap a b (setReference t v) = setReference (swap_idx a b t) (swap a b v).
Proof.
  unfold swap, swapBackbones, swapTrack, setReference. simpl. f_equal.
  unfold swapBackbones_data, setReference_data. rewrite !map_map.
  apply map_ext. intros lcb. apply swapBackbones_setReference_lcb.
Qed.

End Composition.

(** ** Hiding and showing tracks *)

Section HideShow.

Implicit Types (t id : Z) (lcb : LCB) (d : list LCB) (r : Region)
  (v : MauveViewer).

(** X9 ([showTrack] of a track that is not hidden).  When [id] is not in the
    list of hidden tracks, [indexOf] is [-1], and [showTrack id] drops the
    last entry of the list; an empty list stays empty.  The track of the
    entry that is dropped counts as visible afterwards exactly when it has
    no earlier entry in the list. *)
Theorem showTrack_not_hidden id v :
  id ∉ hiddenTracks v →
  hiddenTracks (showTrack id v)
  = take (length (hiddenTracks v) - 1) (hiddenTracks v)
  ∧ (hiddenTracks v = [] → hiddenTracks (showTrack id v) = [])
  ∧ (∀ l j, hiddenTracks v = l ++ [j] →
       hiddenTracks (showTrack id v) = l
       ∧ isHidden j (showTrack id v) = bool_decide (j ∈ l)).
Proof.
  intros Hno.
  assert (hiddenTracks (showTrack id v)
          = take (length (hiddenTracks v) - 1) (hiddenTracks v)) as Heq.
  { simpl. by apply splice_absent. }
  split; [exact Heq|]. split.
  - intros Hnil. by rewrite Heq, Hnil.
  - intros l j Hl.
    assert (hiddenTracks (showTrack id v) = l) as Hl'.
    { rewrite Heq, Hl, length_app. simpl length.
      replace (length l + 1 - 1)%nat with (length l) by lia.
      apply take_app_length. }
    split; [exact Hl'|]. unfold isHidden. by rewrite Hl'.
Qed.

Lemma showTrack_not_hidden_witness :
  hiddenTracks (showTrack 1 (hideTrack 3 (hideTrack 2 example_viewer)))
  = take (length (hiddenTracks (hideTrack 3 (hideTrack 2 example_viewer))) - 1)
         (hiddenTracks (hideTrack 3 (hideTrack 2 example_viewer)))
  ∧ (hiddenTracks (hideTrack 3 (hideTrack 2 example_viewer)) = [] →
     hiddenTracks (showTrack 1 (hideTrack 3 (hideTrack 2 example_viewer))) = [])
  ∧ (∀ l j, hiddenTracks (hideTrack 3 (hideTrack 2 example_viewer)) = l ++ [j] →
       hiddenTracks (showTrack 1 (hideTrack 3 (hideTrack 2 example_viewer))) = l
       ∧ isHidden j (showTrack 1 (hideTrack 3 (hideTrack 2 example_viewer)))
         = bool_decide (j ∈ l)).
Proof.
  apply (showTrack_not_hidden 1 (hideTrack 3 (hideTrack 2 example_viewer))).
  apply (bool_decide_unpack _). vm_compute. exact I.
Defined.

(** Three cases: the last of two hidden tracks becomes visible; a track
    with an earlier entry stays hidden; nothing is dropped from an empty
    list. *)
Example showTrack_not_hidden_example :
  hiddenTracks (showTrack 1 (hideTrack 3 (hideTrack 2 example_viewer))) = [2]
  ∧ isHidden 3 (showTrack 1 (hideTrack 3 (hideTrack 2 example_viewer))) = false
  ∧ hiddenTracks
      (showTrack 1 (hideTrack 3 (hideTrack 2 (hideTrack 3 example_viewer))))
    = [3; 2]
  ∧ isHidden 3
      (showTrack 1 (hideTrack 3 (hideTrack 2 (hideTrack 3 example_viewer)))) = true
  ∧ hiddenTracks (showTrack 1 example_viewer) = [].
Proof. repeat split; by vm_compute. Qed.

Lemma clear_mark_hidden id r :
  (lcb_idx r = id → hidden r = false) → clear_hidden id (mark_hidden id r) = r.
Proof.
  intros Hr. unfold mark_hidden, clear_hidden.
  destruct (decide (lcb_idx r = id)) as [Hid|Hid].
  - rewrite (bool_decide_eq_true_2 _ Hid). simpl.
    rewrite (bool_decide_eq_true_2 _ Hid). specialize (Hr Hid).
    destruct r. simpl in *. by rewrite Hr.
  - by rewrite !(bool_decide_eq_false_2 _ Hid).
Qed.

(** X10 (hide, then show).  Hiding a track that is not hidden, none of
    whose regions is flagged, and showing it again restores the viewer:
    the list of hidden tracks and every region are as before. *)
Theorem hideTrack_showTrack id v :
  id ∉ hiddenTracks v →
  Forall (Forall (fun r => lcb_idx r = id → hidden r = false)) (data v) →
  showTrack id (hideTrack id v) = v.
Proof.
  intros Hno Hflag. destruct v as [d g n h]. unfold showTrack, hideTrack.
  simpl in *. f_equal.
  - rewrite map_map. rewrite <- (map_id d) at 2. apply map_ext_in.
    intros lcb Hin. apply list_elem_of_In in Hin. rewrite Forall_forall in Hflag.
    specialize (Hflag lcb Hin). rewrite map_map.
    rewrite <- (map_id lcb) at 2. apply map_ext_in. intros r Hr.
    apply list_elem_of_In in Hr. rewrite Forall_forall in Hflag.
    apply clear_mark_hidden. by apply Hflag.
  - change (h ++ [id]) with (h ++ id :: []). by apply splice_first.
Qed.

Lemma hideTrack_showTrack_witness :
  showTrack 2 (hideTrack 2 example_viewer) = example_viewer.
Proof.
  apply (hideTrack_showTrack 2 example_viewer).
  - apply (bool_decide_unpack _). vm_compute. exact I.
  - apply (bool_decide_unpack (Forall _ _)). vm_compute. exact I.
Defined.

Lemma ref_not_plusb_fmap t (f : Region → Region) lcb :
  (∀ r, lcb_idx (f r) = lcb_idx r ∧ strand (f r) = strand r) →
  ref_not_plusb t (map f lcb) = ref_not_plusb t lcb.
Proof.
  intros Hf. unfold ref_not_plusb. induction lcb as [|r lcb IH]; simpl; [done|].
  destruct (Hf r) as [-> ->]. by rewrite IH.
Qed.

Lemma setReference_lcb_hidden t (h : bool) id lcb :
  setReference_lcb t
    (map (fun r => if bool_decide (lcb_idx r = id) then set_hidden h r else r) lcb)
  = map (fun r => if bool_decide (lcb_idx r = id) then set_hidden h r else r)
      (setReference_lcb t lcb).
Proof.
  rewrite !setReference_lcb_eq. rewrite ref_not_plusb_fmap.
  2:{ intros r. by case_bool_decide. }
  destruct (ref_not_plusb t lcb); [|done].
  rewrite !map_map. apply map_ext. intros r. unfold reorient.
  destruct r. simpl. by repeat (case_bool_decide; simpl).
Qed.

(** X11 (hiding and reorientation do not meet).  [hideTrack] and
    [showTrack] commute with [setReference]: the strands after a change of
    reference do not depend on which tracks are hidden, and the hidden
    flags and the list of hidden tracks do not depend on the reference. *)
Theorem setReference_hide_show t id v :
  setReference t (hideTrack id v) = hideTrack id (setReference t v)
  ∧ setReference t (showTrack id v) = showTrack id (setReference t v).
Proof.
  split; unfold setReference, hideTrack, showTrack; simpl; f_equal;
    unfold setReference_data; rewrite !map_map; apply map_ext; intros lcb.
  - apply (setReference_lcb_hidden t true id).
  - apply (setReference_lcb_hidden t false id).
Qed.

End HideShow.

(** ** The data model is kept *)

Section Kept.

Implicit Types (a b t id : Z) (lcb : LCB) (d : list LCB) (r : Region)
  (v : MauveViewer).

Lemma well_formed_map (f : LCB → LCB) d :
  (∀ lcb, plus_minus lcb → one_per_track lcb →
          plus_minus (f lcb) ∧ one_per_track (f lcb)) →
  well_formed d → well_formed (map f d).
Proof.
  intros Hf. unfold well_formed. rewrite Forall_fmap. intros Hwf.
  eapply Forall_impl; [exact Hwf|]. intros lcb [Hpm Hone]. simpl. by apply Hf.
Qed.

Lemma well_formed_fmap (f : Region → Region) lcb :
  (∀ r, lcb_idx (f r) = lcb_idx r ∧ strand (f r) = strand r) →
  plus_minus lcb → one_per_track lcb →
  plus_minus (map f lcb) ∧ one_per_track (map f lcb).
Proof.
  intros Hf Hpm Hone. split.
  - unfold plus_minus in *. rewrite Forall_fmap. eapply Forall_impl; [exact Hpm|].
    simpl. intros r. by destruct (Hf r) as [_ ->].
  - unfold one_per_track in *.
    replace (lcb_idx <$> map f lcb) with (lcb_idx <$> lcb); [done|].
    rewrite <- list_fmap_compose. apply list_fmap_ext. intros ? r _. simpl.
    by destruct (Hf r) as [-> _].
Qed.

Lemma well_formed_swapBackbones_lcb a b lcb :
  plus_minus lcb → one_per_track lcb →
  plus_minus (swapBackbones_lcb a b lcb) ∧ one_per_track (swapBackbones_lcb a b lcb).
Proof.
  intros Hpm Hone. unfold swapBackbones_lcb. split.
  - unfold plus_minus in *. rewrite array_sort_perm. unfold relabel.
    rewrite Forall_fmap. eapply Forall_impl; [exact Hpm|]. simpl.
    intros r. unfold relabel_region. by repeat case_bool_decide.
  - unfold one_per_track in *. rewrite array_sort_perm. unfold relabel.
    replace (lcb_idx <$> map (relabel_region a b) lcb)
      with (swap_idx a b <$> (lcb_idx <$> lcb)).
    + apply NoDup_fmap_2; [|done]. intros i j Hij. by apply swap_idx_inj in Hij.
    + rewrite <- !list_fmap_compose. apply list_fmap_ext. intros ? r _.
      simpl. by rewrite lcb_idx_relabel_region.
Qed.

Lemma well_formed_apply_op op v :
  well_formed (data v) → well_formed (data (apply_op op v)).
Proof.
  intros Hwf.
  assert (∀ a b, well_formed (data (swap a b v))) as Hswap.
  { intros a b. simpl. apply well_formed_map; [|done].
    apply well_formed_swapBackbones_lcb. }
  destruct op as [t|t|t|a b|t|t]; simpl apply_op.
  - simpl. apply well_formed_map; [|done]. intros lcb Hpm Hone.
    split; [by apply plus_minus_setReference_lcb
           |by apply one_per_track_setReference_lcb].
  - unfold moveTrackUp. case_bool_decide; [done|apply Hswap].
  - unfold moveTrackDown. case_bool_decide; [done|apply Hswap].
  - apply Hswap.
  - simpl. apply well_formed_map; [|done]. intros lcb.
    apply well_formed_fmap. intros r. unfold mark_hidden. by case_bool_decide.
  - simpl. apply well_formed_map; [|done]. intros lcb.
    apply well_formed_fmap. intros r. unfold clear_hidden. by case_bool_decide.
Qed.

(** X12 (the data model is an invariant).  When the strands of a region set
    are ['+'] or ['-'] and no group has two regions of one track, the same
    holds after any sequence of operations. *)
Theorem session_well_formed ops v :
  well_formed (data v) → well_formed (data (run ops v)).
Proof.
  apply (run_invariant (fun v => well_formed (data v))).
  apply well_formed_apply_op.
Qed.

Lemma session_well_formed_witness :
  well_formed (data (run [MoveTrackDown 1; SetReference 3; HideTrack 2]
                         example_viewer)).
Proof.
  apply (session_well_formed [MoveTrackDown 1; SetReference 3; HideTrack 2]
           example_viewer).
  apply (bool_decide_unpack (well_formed _)). vm_compute. exact I.
Defined.

Lemma ascending_fmap lcb :
  ascending lcb ↔ StronglySorted Z.le (lcb_idx <$> lcb).
Proof.
  unfold ascending. induction lcb as [|r lcb IH].
  - split; constructor.
  - rewrite fmap_cons, !StronglySorted_cons, IH, Forall_fmap. done.
Qed.

Lemma ascending_idx lcb lcb' :
  lcb_idx <$> lcb' = lcb_idx <$> lcb → ascending lcb → ascending lcb'.
Proof. rewrite !ascending_fmap. by intros ->. Qed.

Lemma ascending_apply_op op v :
  Forall ascending (data v) → Forall ascending (data (apply_op op v)).
Proof.
  intros Hasc.
  assert (∀ (f : LCB → LCB), (∀ lcb, lcb_idx <$> f lcb = lcb_idx <$> lcb) →
          Forall ascending (map f (data v))) as Hmap.
  { intros f Hf. rewrite Forall_fmap. eapply Forall_impl; [exact Hasc|].
    simpl. intros lcb. apply ascending_idx, Hf. }
  assert (∀ (f : Region → Region) lcb, (∀ r, lcb_idx (f r) = lcb_idx r) →
          lcb_idx <$> map f lcb = lcb_idx <$> lcb) as Hfmap.
  { intros f lcb Hf. rewrite <- list_fmap_compose. apply list_fmap_ext.
    intros ? r _. apply Hf. }
  destruct op as [t|t|t|a b|t|t]; simpl apply_op.
  - apply Hmap. apply lcb_idx_setReference_lcb.
  - unfold moveTrackUp. case_bool_decide; [done|apply swap_ascending].
  - unfold moveTrackDown. case_bool_decide; [done|apply swap_ascending].
  - apply swap_ascending.
  - simpl. apply Hmap. intros lcb. apply Hfmap. intros r.
    unfold mark_hidden. by case_bool_decide.
  - simpl. apply Hmap. intros lcb. apply Hfmap. intros r.
    unfold clear_hidden. by case_bool_decide.
Qed.

(** X13 (track order inside the groups).  After a swap every group is in
    ascending track order, whatever it was before, and no later operation
    breaks that. *)
Theorem session_ascending a b ops v :
  Forall ascending (data (run ops (swap a b v))).
Proof.
  apply (run_invariant (fun v => Forall ascending (data v))).
  - apply ascending_apply_op.
  - apply swap_ascending.
Qed.

End Kept.

(** ** The cursor: when [mousemove] returns, and what else it leaves *)

Section HoverMore.

Implicit Types (c : Cursor) (d r : Region) (t : Z) (ele : Element)
  (mouseX : Q) (sel : list Region).

(** One visit of [place_other] that returns: the hovered track and the
    fields of the hover are not touched, and the visited region is of the
    hovered track or has a scale and a line. *)
Lemma place_other_inv trackID hoverStrand xPos relXPos d c c' :
  place_other trackID hoverStrand xPos relXPos d c = Some c' →
  tracks c' = tracks c
  ∧ length (hoverLines c') = length (hoverLines c)
  ∧ hoverXPos c' = hoverXPos c
  ∧ hoverTrackID c' = hoverTrackID c
  ∧ hoverLCBID c' = hoverLCBID c
  ∧ highlighted c' = highlighted c
  ∧ marks c' trackID = marks c trackID
  ∧ (lcb_idx d = trackID ∨ on_track c (lcb_idx d)).
Proof.
  unfold place_other. case_bool_decide as Hd.
  { intros [= <-]. repeat split; try done. by left. }
  destruct (array_get (tracks c) (lcb_idx d - 1)) as [x|] eqn:Hx; [|done].
  simpl. unfold line_attr. simpl.
  destruct (array_get (hoverLines c) (lcb_idx d - 1)) as [line|] eqn:Hline;
    [|done].
  simpl. intros [= <-].
  assert (0 ≤ lcb_idx d - 1) as Hnn.
  { apply (array_get_is_Some (hoverLines c)). by rewrite Hline. }
  split; [done|]. split; [simpl; by rewrite length_insert|].
  do 4 (split; [done|]). split.
  - unfold marks. simpl. rewrite !lookup_insert_ne by lia.
    rewrite lookup_alter_ne by done. by rewrite array_get_insert_ne by lia.
  - right. split; [by rewrite Hx|by rewrite Hline].
Qed.

Lemma each_place_other_inv trackID hoverStrand xPos relXPos sel c c' :
  each (place_other trackID hoverStrand xPos relXPos) sel c = Some c' →
  tracks c' = tracks c
  ∧ length (hoverLines c') = length (hoverLines c)
  ∧ hoverXPos c' = hoverXPos c
  ∧ hoverTrackID c' = hoverTrackID c
  ∧ hoverLCBID c' = hoverLCBID c
  ∧ highlighted c' = highlighted c
  ∧ marks c' trackID = marks c trackID
  ∧ Forall (fun r => lcb_idx r = trackID ∨ on_track c (lcb_idx r)) sel.
Proof.
  revert c. induction sel as [|d sel IH]; intros c; simpl.
  { intros [= <-]. repeat split; try done. }
  destruct (place_other trackID hoverStrand xPos relXPos d c) as [c1|] eqn:Hstep;
    [|done].
  simpl. intros Hrun.
  destruct (place_other_inv _ _ _ _ _ _ _ Hstep)
    as (Ht1 & Hl1 & Hx1 & Hi1 & Hg1 & Hh1 & Hm1 & Hd1).
  destruct (IH c1 Hrun) as (Ht & Hl & Hx & Hi & Hg & Hh & Hm & Hall).
  repeat split; try congruence.
  constructor; [done|]. eapply Forall_impl; [exact Hall|]. simpl.
  intros r [Hr|Hr]; [by left|right].
  by apply (on_track_same c1 c).
Qed.

(** Everything a returning [mousemove] over a region went through. *)
Lemma mousemove_region_inv c ele mouseX c' :
  is_region ele → mousemove (Some ele) mouseX c = Some c' →
  ∃ d x,
    datum ele = Some d
    ∧ array_get (tracks c) (lcb_idx d - 1) = Some x
    ∧ on_track c (lcb_idx d)
    ∧ Forall (fun r => on_track c (lcb_idx r)) (group_shapes c (groupID d))
    ∧ hoverTrackID c' = Some (lcb_idx d)
    ∧ hoverLCBID c' = Some (groupID d)
    ∧ highlighted c' = {[groupID d]} ∪ highlighted c
    ∧ lengthNode c' = Some (end_ d - start d + 1)
    ∧ ntPosNode c' = Some (Math_round (invert x (snapped x mouseX))).
Proof.
  intros [Htag Hcls]. unfold mousemove, contains.
  rewrite (bool_decide_eq_false_2 (tagName ele ≠ "rect")) by (by intros ?).
  rewrite (bool_decide_eq_true_2 _ Hcls). simpl.
  destruct (datum ele) as [d|]; [|done]. simpl.
  destruct (array_get (tracks c) (lcb_idx d - 1)) as [x|] eqn:Hx; [|done].
  simpl. unfold line_attr. simpl.
  destruct (array_get (hoverLines c) (lcb_idx d - 1)) as [line|] eqn:Hline;
    [|done].
  simpl. fold (snapped x mouseX). fold (relOffset x d mouseX).
  remember (set_hoverLCBID _ _) as c2 eqn:Hc2.
  destruct (each _ _ c2) as [c3|] eqn:Hrun; [|done]. simpl. intros [= <-].
  destruct (each_place_other_inv _ _ _ _ _ _ _ Hrun)
    as (Ht & Hl & Hx3 & Hi & Hg & Hh & Hm & Hall).
  assert (on_track c (lcb_idx d)) as Hon.
  { split; [by rewrite Hx|by rewrite Hline]. }
  exists d, x. split; [done|]. split; [done|]. split; [done|]. split.
  { eapply Forall_impl; [exact Hall|]. simpl. intros r [->|Hr]; [done|].
    apply (on_track_same c2 c); subst c2; [done| |done].
    simpl. by rewrite length_insert. }
  simpl. rewrite Hi, Hg, Hh. by subst c2.
Qed.

(** X14 (when a hover throws).  Over the rect of a region, [mousemove]
    returns normally exactly when the rect carries a region and that
    region and every region drawn for its group is on a track that has a
    scale and a cursor line; in every other case it throws. *)
Theorem mousemove_returns c ele mouseX :
  is_region ele →
  (is_Some (mousemove (Some ele) mouseX c)
   ↔ ∃ d, datum ele = Some d
          ∧ on_track c (lcb_idx d)
          ∧ Forall (fun r => on_track c (lcb_idx r)) (group_shapes c (groupID d))).
Proof.
  intros Hreg. split.
  - intros [c' Hrun].
    destruct (mousemove_region_inv c ele mouseX c' Hreg Hrun)
      as (d & x & Hd & _ & Hon & Hall & _).
    by exists d.
  - intros (d & Hd & Hon & Hall). destruct Hreg as [Htag Hcls].
    destruct (mousemove_region c ele d mouseX Htag Hcls Hd Hon Hall)
      as (c' & x & Hrun & _).
    by exists c'.
Qed.

Lemma mousemove_returns_witness :
  is_Some (mousemove (Some (region_rect example_region)) (1503 # 10) example_cursor)
  ↔ ∃ d, datum (region_rect example_region) = Some d
         ∧ on_track example_cursor (lcb_idx d)
         ∧ Forall (fun r => on_track example_cursor (lcb_idx r))
                  (group_shapes example_cursor (groupID d)).
Proof.
  apply (mousemove_returns example_cursor (region_rect example_region) (1503 # 10)).
  split; [reflexivity|]. apply (bool_decide_unpack _). vm_compute. exact I.
Defined.



End HoverMore.

Section HoverRest.

Implicit Types (c : Cursor) (d r : Region) (t : Z) (ele : Element)
  (mouseX : Q).

(** X16 (tracks outside the group).  When [mousemove] over the rect of
    region [d] returns, a track other than the hovered one that has no
    region drawn for the group of [d] keeps what it had: its line and box
    stay where they were and its entries in [relativeXs] and [scales] are
    the old ones. *)
Theorem mousemove_other_tracks c ele d mouseX c' t :
  is_region ele → datum ele = Some d →
  mousemove (Some ele) mouseX c = Some c' →
  t ≠ lcb_idx d →
  (∀ r, r ∈ group_shapes c (groupID d) → lcb_idx r ≠ t) →
  relativeXs c' !! (t - 1) = relativeXs c !! (t - 1)
  ∧ scales c' !! (t - 1) = scales c !! (t - 1)
  ∧ array_get (hoverLines c') (t - 1) = array_get (hoverLines c) (t - 1)
  ∧ hoverBoxes c' !! t = hoverBoxes c !! t.
Proof.
  intros Hreg Hd Hrun Ht Hno.
  destruct (mousemove_region_inv c ele mouseX c' Hreg Hrun)
    as (d0 & x & Hd0 & Hx & Hon & Hall & _).
  assert (d0 = d) as -> by congruence.
  destruct Hreg as [Htag Hcls].
  destruct (mousemove_region c ele d mouseX Htag Hcls Hd Hon Hall)
    as (c0 & x0 & Hrun0 & _ & _ & _ & _ & Hstay).
  assert (c0 = c') as -> by congruence.
  specialize (Hstay t Ht Hno). unfold marks in Hstay.
  by injection Hstay as -> -> -> ->.
Qed.

Lemma mousemove_other_tracks_witness :
  ∃ c',
    mousemove (Some (region_rect example_region2)) 700%Q example_cursor = Some c'
    ∧ relativeXs c' !! (1 - 1) = relativeXs example_cursor !! (1 - 1)
    ∧ scales c' !! (1 - 1) = scales example_cursor !! (1 - 1)
    ∧ array_get (hoverLines c') (1 - 1) = array_get (hoverLines example_cursor) (1 - 1)
    ∧ hoverBoxes c' !! 1 = hoverBoxes example_cursor !! 1.
Proof.
  destruct (mousemove (Some (region_rect example_region2)) 700%Q example_cursor)
    as [c'|] eqn:Hrun; [|by vm_compute in Hrun].
  exists c'. split; [reflexivity|].
  apply (mousemove_other_tracks example_cursor (region_rect example_region2)
           example_region2 700%Q c' 1).
  - split; [reflexivity|]. apply (bool_decide_unpack _). vm_compute. exact I.
  - reflexivity.
  - exact Hrun.
  - discriminate.
  - apply Forall_forall. apply (bool_decide_unpack (Forall _ _)).
    vm_compute. exact I.
Defined.

(** X17 (the snap).  The pointer position enters [mousemove] only through
    the base it rounds to on the hovered track: two positions over the same
    region that round to the same base give the same result. *)
Theorem mousemove_snap c ele d x (m1 m2 : Q) :
  datum ele = Some d →
  array_get (tracks c) (lcb_idx d - 1) = Some x →
  Math_round (invert x m1) = Math_round (invert x m2) →
  mousemove (Some ele) m1 c = mousemove (Some ele) m2 c.
Proof.
  intros Hd Hx Hround. unfold mousemove.
  destruct (bool_decide (tagName ele ≠ "rect") || negb (contains "region" ele));
    [done|].
  rewrite Hd. simpl. rewrite Hx. simpl. by rewrite Hround.
Qed.

Lemma mousemove_snap_witness :
  mousemove (Some (region_rect example_region)) (1503 # 10) example_cursor
  = mousemove (Some (region_rect example_region)) (1498 # 10) example_cursor.
Proof.
  apply (mousemove_snap example_cursor (region_rect example_region)
           example_region (zoomed 1)); reflexivity.
Defined.

(** X18 ([mouseout]).  Leaving the tracks, unless onto a cursor line,
    makes every line and box transparent, parks the lines at [-2] and the
    boxes at [-11], removes the highlight and empties the status; leaving
    onto a cursor line does nothing.  In both cases what a click reports is
    not touched. *)
Theorem mouseout_parks c (onLine : bool) :
  click (mouseout onLine c) = click c
  ∧ mouseout true c = c
  ∧ cursors_hidden (mouseout false c)
  ∧ Forall (fun l : Attrs => l !! "x1" = Some (-2)%Q ∧ l !! "x2" = Some (-2)%Q)
           (hoverLines (mouseout false c))
  ∧ map_Forall (fun (_ : Z) (b : Attrs) => b !! "x" = Some (-11)%Q)
               (hoverBoxes (mouseout false c))
  ∧ length (hoverLines (mouseout false c)) = length (hoverLines c)
  ∧ highlighted (mouseout false c) = ∅
  ∧ lengthNode (mouseout false c) = None
  ∧ ntPosNode (mouseout false c) = None.
Proof.
  split; [by destruct onLine|]. split; [done|]. unfold mouseout.
  split.
  { unfold cursors_hidden. simpl. split.
    - rewrite Forall_fmap, Forall_forall. intros l _. simpl. unfold attr.
      rewrite 2!lookup_insert_ne by done. apply lookup_insert_eq.
    - intros i b Hb. apply lookup_fmap_Some in Hb as (b0 & <- & _).
      unfold attr. rewrite lookup_insert_ne by done. apply lookup_insert_eq. }
  simpl. split.
  { rewrite Forall_fmap, Forall_forall. intros l _. simpl. unfold attr.
    split; [rewrite lookup_insert_ne by done|]; apply lookup_insert_eq. }
  split.
  { intros i b Hb. apply lookup_fmap_Some in Hb as (b0 & <- & _).
    unfold attr. apply lookup_insert_eq. }
  split; [by rewrite length_fmap|done].
Qed.

End HoverRest.

(** ** [getSharedLCBs] and the axis length *)

Section Shared.

Implicit Types (lcb : LCB) (d : list LCB) (xs : list Z).

Lemma foldl_max_spec (x : Z) xs :
  foldl Z.max x xs ∈ x :: xs
  ∧ x ≤ foldl Z.max x xs
  ∧ Forall (fun y => y ≤ foldl Z.max x xs) xs.
Proof.
  revert x. induction xs as [|y xs IH]; intros x; simpl.
  - split; [left|]. split; [lia|constructor].
  - destruct (IH (Z.max x y)) as (Hin & Hle & Hall).
    split; [|split; [lia|constructor; [lia|done]]].
    apply elem_of_cons in Hin as [Heq|Hin]; [|by do 2 right].
    rewrite Heq. destruct (Z.max_spec x y) as [[_ ->]|[_ ->]];
      [right; left|left].
Qed.

Lemma Math_max_Some xs m :
  Math_max xs = Some m ↔ m ∈ xs ∧ Forall (fun y => y ≤ m) xs.
Proof.
  destruct xs as [|x xs]; simpl.
  - split; [done|]. intros [Hin _]. by apply elem_of_nil in Hin.
  - destruct (foldl_max_spec x xs) as (Hin & Hle & Hall). split.
    + intros [= <-]. split; [done|]. by constructor.
    + intros [Hm Hall']. f_equal.
      rewrite Forall_forall in Hall'. specialize (Hall' _ Hin).
      assert (m ≤ foldl Z.max x xs); [|lia].
      apply elem_of_cons in Hm as [->|Hm]; [done|].
      rewrite Forall_forall in Hall. by apply Hall.
Qed.

Lemma Math_max_None xs : Math_max xs = None ↔ xs = [].
Proof. by destruct xs. Qed.

(** X19 ([getSharedLCBs] keeps the largest groups).  A group is returned
    exactly when it is a group of the data and no group has more rows; the
    groups that are returned come in their order in the data. *)
Theorem getSharedLCBs_largest d :
  (∀ lcb, lcb ∈ getSharedLCBs d
          ↔ lcb ∈ d ∧ ∀ lcb', lcb' ∈ d → (length lcb' ≤ length lcb)%nat)
  ∧ getSharedLCBs d `sublist_of` d.
Proof.
  split; [|apply sublist_filter].
  intros lcb. unfold getSharedLCBs. rewrite list_elem_of_filter.
  split.
  - intros [Hmax Hin]. split; [done|]. intros lcb' Hin'.
    symmetry in Hmax. apply Math_max_Some in Hmax as [_ Hall].
    rewrite Forall_fmap, Forall_forall in Hall. specialize (Hall lcb' Hin').
    simpl in Hall. lia.
  - intros [Hin Hall]. split; [|done]. symmetry. apply Math_max_Some. split.
    + by apply (list_elem_of_fmap_2 (fun lcb => Z.of_nat (length lcb))).
    + rewrite Forall_fmap, Forall_forall. intros lcb' Hin'. simpl.
      specialize (Hall lcb' Hin'). lia.
Qed.

(** X20 ([getSharedLCBs] on its own result).  The result is empty only for
    empty data, and applying the function again changes nothing. *)
Theorem getSharedLCBs_idempotent d :
  (getSharedLCBs d = [] ↔ d = [])
  ∧ getSharedLCBs (getSharedLCBs d) = getSharedLCBs d.
Proof.
  assert (d ≠ [] → ∃ m, Math_max ((fun lcb => Z.of_nat (length lcb)) <$> d) = Some m
                       ∧ ∃ lcb, lcb ∈ getSharedLCBs d) as Hne.
  { intros Hd. destruct d as [|lcb0 d]; [done|].
    destruct (Math_max ((fun lcb => Z.of_nat (length lcb)) <$> lcb0 :: d))
      as [m|] eqn:Hm; [|done].
    exists m. split; [done|].
    pose proof (proj1 (Math_max_Some _ _) Hm) as [Hin _].
    apply list_elem_of_fmap in Hin as (lcb & Hlen & Hin). exists lcb.
    unfold getSharedLCBs. rewrite Hm. apply list_elem_of_filter.
    split; [by rewrite Hlen|done]. }
  split.
  - split; [|by intros ->]. intros Hempty.
    destruct (decide (d = [])) as [|Hd]; [done|].
    destruct (Hne Hd) as (_ & _ & lcb & Hin). rewrite Hempty in Hin.
    by apply elem_of_nil in Hin.
  - destruct (decide (d = [])) as [->|Hd]; [done|].
    destruct (Hne Hd) as (m & Hm & lcb & Hin).
    unfold getSharedLCBs at 1. fold (getSharedLCBs d).
    assert (Math_max ((fun lcb => Z.of_nat (length lcb)) <$> getSharedLCBs d)
            = Some m) as ->.
    { apply Math_max_Some. split.
      - apply list_elem_of_fmap. exists lcb. split; [|exact Hin].
        unfold getSharedLCBs in Hin. rewrite Hm in Hin.
        apply list_elem_of_filter in Hin as [Hlen _]. congruence.
      - rewrite Forall_fmap, Forall_forall. intros lcb' Hin'.
        unfold getSharedLCBs in Hin'. rewrite Hm in Hin'.
        apply list_elem_of_filter in Hin' as [Hlen' _]. simpl.
        injection Hlen' as ->. lia. }
    unfold getSharedLCBs. rewrite Hm.
    apply list_filter_filter_l. done.
Qed.

Lemma round_double_exact (n : Z) : Z.abs n < two53 → round_double n = n.
Proof.
  intros Hn. unfold round_double. simpl.
  by rewrite (proj2 (Z.ltb_lt _ _) Hn).
Qed.

(** X21 (the axis is long enough).  When every region end [e] has
    [|e| + 100 < 2^53], so that the sum is exact, the axis length that
    [render] computes is 100 more than the largest [end] of all regions:
    every region ends at least 100 before it.  Without any region it is
    [-Infinity]. *)
Theorem xLength_covers d :
  ends_exact d →
  match xLength d with
  | None => concat d = []
  | Some n =>
      (∀ r, r ∈ concat d → end_ r + 100 ≤ n)
      ∧ ∃ r, r ∈ concat d ∧ n = end_ r + 100
  end.
Proof.
  intros Hex. unfold ends_exact in Hex. rewrite Forall_forall in Hex.
  unfold xLength, endMax.
  destruct (Math_max (end_ <$> concat d)) as [m|] eqn:Hm; simpl.
  - apply Math_max_Some in Hm as [Hin Hall].
    apply list_elem_of_fmap in Hin as (r0 & -> & Hr0).
    rewrite round_double_exact by (specialize (Hex r0 Hr0); lia).
    split.
    + intros r Hr. rewrite Forall_fmap, Forall_forall in Hall.
      specialize (Hall r Hr). simpl in Hall. lia.
    + by exists r0.
  - apply Math_max_None in Hm. by apply fmap_nil_inv in Hm.
Qed.

Lemma xLength_covers_witness :
  match xLength example_data with
  | None => concat example_data = []
  | Some n =>
      (∀ r, r ∈ concat example_data → end_ r + 100 ≤ n)
      ∧ ∃ r, r ∈ concat example_data ∧ n = end_ r + 100
  end.
Proof.
  apply (xLength_covers example_data).
  apply (bool_decide_unpack (ends_exact _)). vm_compute. exact I.
Defined.

(** Beyond that range the sum is rounded: from an end of [2^53 - 1] the
    axis length is 101 more, from [2^53 - 3] it is 99 more, and from [2^60]
    it is the end itself. *)
Example xLength_rounded :
  xLength [ [ raw "g1" 0 9007199254740991 "+" 1 ] ] = Some 9007199254741092
  ∧ xLength [ [ raw "g1" 0 9007199254740989 "+" 1 ] ] = Some 9007199254741088
  ∧ xLength [ [ raw "g1" 0 1152921504606846976 "+" 1 ] ] = Some 1152921504606846976
  ∧ xLength example_data = Some 900.
Proof. repeat split; by vm_compute. Qed.

End Shared.

(** ** The track loop of [render] *)

Section Render.

Variable hideTrackOffset : Z.

Implicit Types (id t y : Z) (ids : list Z) (d : list LCB) (v : MauveViewer).

Lemma track_ids_nil t d :
  track_ids t d = [] ↔ ∀ r, r ∈ concat d → lcb_idx r ≠ t.
Proof.
  unfold track_ids. split.
  - intros Hnil r Hr Ht. apply fmap_nil_inv in Hnil.
    assert (r ∈ filter (fun r => lcb_idx r = t) (concat d)) as Hin.
    { by apply list_elem_of_filter. }
    rewrite Hnil in Hin. by apply elem_of_nil in Hin.
  - intros Hno. destruct (filter _ (concat d)) as [|r l] eqn:Hf; [done|].
    assert (r ∈ filter (fun r => lcb_idx r = t) (concat d)) as Hin.
    { rewrite Hf. left. }
    apply list_elem_of_filter in Hin as [Ht Hr]. by destruct (Hno r Hr).
Qed.

Lemma render_loop_is_Some v ids y :
  is_Some (render_loop hideTrackOffset v ids y)
  ↔ Forall (fun id => ∃ row, genomeRegions v !! id = Some row ∧ row ≠ []) ids.
Proof.
  revert y. induction ids as [|id ids IH]; intros y; simpl.
  - split; [constructor|by eexists].
  - rewrite Forall_cons. destruct (genomeRegions v !! id) as [row|] eqn:Hrow; simpl.
    2:{ split; [by intros [? ?]|]. by intros [(row & ? & _) _]. }
    destruct row as [|first row]; simpl.
    { split; [by intros [? ?]|]. intros [(row & [= <-] & Hne) _]. done. }
    specialize (IH (y + (if bool_decide (id = 1) then 0
                         else if isHidden id v then hideTrackOffset
                              else trackOffset))).
    destruct (render_loop hideTrackOffset v ids _) as [l'|]; simpl.
    + split; [|by eexists]. intros _. split.
      * by exists (first :: row).
      * apply IH. by eexists.
    + split; [by intros [? ?]|]. intros [_ Hall]. apply IH in Hall.
      by destruct Hall as [? ?].
Qed.

(** X22 (when [render] finds its tracks).  After [init] and any sequence of
    operations, the loop that builds the tracks runs through exactly when
    every track index from 1 to [trackCount] has a region in some group; a
    gap in the track indices makes [render] throw. *)
Theorem render_tracks_returns d ops :
  is_Some (render_tracks hideTrackOffset (run ops (init d)))
  ↔ ∀ id, 1 ≤ id ≤ trackCount (run ops (init d)) →
          ∃ r, r ∈ concat (data (run ops (init d))) ∧ lcb_idx r = id.
Proof.
  assert (table_agrees (run ops (init d))) as [Hrow Hne].
  { apply run_invariant; [apply table_agrees_apply_op|apply table_agrees_init]. }
  set (v := run ops (init d)) in *.
  unfold render_tracks. rewrite render_loop_is_Some, Forall_forall.
  assert (∀ id, (∃ row, genomeRegions v !! id = Some row ∧ row ≠ [])
                ↔ ∃ r, r ∈ concat (data v) ∧ lcb_idx r = id) as Hiff.
  { intros id. specialize (Hrow id). unfold track_row in Hrow. split.
    - intros (row & Hl & Hnil). rewrite Hl in Hrow. simpl in Hrow.
      unfold track_ids in Hrow.
      destruct (filter (fun r => lcb_idx r = id) (concat (data v)))
        as [|r l] eqn:Hf; [by destruct Hnil|].
      assert (r ∈ filter (fun r => lcb_idx r = id) (concat (data v))) as Hin.
      { rewrite Hf. left. }
      apply list_elem_of_filter in Hin as [Hid Hin]. by exists r.
    - intros (r & Hr & Hid).
      destruct (genomeRegions v !! id) as [row|] eqn:Hl; simpl in Hrow.
      + exists row. split; [done|]. intros ->. by apply (Hne id).
      + symmetry in Hrow. rewrite track_ids_nil in Hrow. by destruct (Hrow r Hr). }
  split.
  - intros Hall id Hid. apply Hiff, Hall. apply elem_of_seqZ. lia.
  - intros Hall id Hid. apply Hiff, Hall. apply elem_of_seqZ in Hid. lia.
Qed.

End Render.

Section Layout.

Variable hideTrackOffset : Z.

Implicit Types (id t y : Z) (ids : list Z) (d : list LCB) (v : MauveViewer)
  (l : list TrackParams).

Lemma trackCount_apply_op op v : trackCount (apply_op op v) = trackCount v.
Proof.
  destruct op; simpl; try done.
  - unfold moveTrackUp. by case_bool_decide.
  - unfold moveTrackDown. by case_bool_decide.
Qed.

Lemma lcb_idx_content d d' :
  map (map content) d' = map (map content) d →
  lcb_idx <$> concat d' = lcb_idx <$> concat d.
Proof.
  intros Hc.
  assert (∀ k : list LCB, lcb_idx <$> concat k
            = (fun c => c.1.2) <$> concat (map (map content) k)) as Hk.
  { intros k. induction k as [|lcb k IH]; simpl; [done|].
    rewrite !fmap_app, IH. f_equal.
    change (map content lcb) with (content <$> lcb).
    rewrite <- list_fmap_compose. by apply list_fmap_ext. }
  by rewrite !Hk, Hc.
Qed.

(** X23 (the number of tracks).  [trackCount] is set by [init] to the
    number of different track indices in the data, and no operation
    changes it. *)
Theorem session_trackCount d ops :
  trackCount (run ops (init d))
  = Z.of_nat (size (list_to_set (lcb_idx <$> concat d) : gset Z)).
Proof.
  apply (run_invariant (fun v => trackCount v = _)).
  { intros op v Hv. by rewrite trackCount_apply_op. }
  destruct (getGenomeRegions_spec d)
    as (d' & m & Hload & _ & _ & Hc & Hrow & Hne).
  unfold init. rewrite Hload. simpl. f_equal. rewrite <- size_dom.
  f_equal. apply set_eq. intros t.
  rewrite elem_of_dom, elem_of_list_to_set, <- (lcb_idx_content d d' Hc).
  specialize (Hrow t). specialize (Hne t). unfold track_row in Hrow. split.
  - intros [row Hl]. rewrite Hl in Hrow. simpl in Hrow.
    destruct (decide (t ∈ lcb_idx <$> concat d')) as [|Hno]; [done|].
    exfalso. apply Hne. rewrite Hl, Hrow. f_equal. apply track_ids_nil.
    intros r Hr Ht. apply Hno. rewrite <- Ht. by apply list_elem_of_fmap_2.
  - intros Hin. apply list_elem_of_fmap in Hin as (r & -> & Hr).
    destruct (m !! lcb_idx r) as [row|] eqn:Hl; [by eexists|].
    simpl in Hrow. symmetry in Hrow. rewrite track_ids_nil in Hrow.
    by destruct (Hrow r Hr).
Qed.

Lemma render_loop_spec v ids y l :
  render_loop hideTrackOffset v ids y = Some l →
  tp_id <$> l = ids
  ∧ Forall (fun p => tp_hidden p = isHidden (tp_id p) v
                     ∧ genomeRegions v !! tp_id p = Some (tp_regions p)
                     ∧ head (tp_regions p) = Some (tp_first p)) l
  ∧ (∀ p, l !! 0%nat = Some p →
       tp_yPos p = y + (if bool_decide (tp_id p = 1) then 0
                        else if tp_hidden p then hideTrackOffset else trackOffset))
  ∧ (∀ (i : nat) p q, l !! i = Some p → l !! S i = Some q →
       tp_yPos q = tp_yPos p
                   + (if bool_decide (tp_id q = 1) then 0
                      else if tp_hidden q then hideTrackOffset else trackOffset)).
Proof.
  revert y l. induction ids as [|id ids IH]; intros y l; simpl.
  { intros [= <-]. repeat split; try done; intros; simplify_eq. }
  destruct (genomeRegions v !! id) as [row|] eqn:Hrow; [|done]. simpl.
  destruct (head row) as [first|] eqn:Hfirst; [|done]. simpl.
  destruct (render_loop hideTrackOffset v ids _) as [l'|] eqn:Hrun; [|done].
  simpl. intros [= <-].
  destruct (IH _ _ Hrun) as (Hids & Hall & Hhead & Hnext).
  split; [by rewrite fmap_cons, Hids|]. split; [by constructor|]. split.
  - intros p [= <-]. done.
  - intros [|i] p q Hp Hq; simpl in Hp, Hq.
    + injection Hp as <-. simpl. by apply Hhead.
    + by apply (Hnext i).
Qed.

(** X24 (where the tracks are put).  When the loop runs through, it yields
    the tracks 1 to [trackCount] in order, each with its row of the table
    and its hidden state; the first track is at [marginTop], and every
    other track is [hideTrackOffset] below the one before it when it is
    hidden itself, [trackOffset] below it otherwise. *)
Theorem render_tracks_layout v l :
  render_tracks hideTrackOffset v = Some l →
  tp_id <$> l = seqZ 1 (trackCount v)
  ∧ Forall (fun p => tp_hidden p = isHidden (tp_id p) v
                     ∧ genomeRegions v !! tp_id p = Some (tp_regions p)
                     ∧ head (tp_regions p) = Some (tp_first p)) l
  ∧ (∀ p, l !! 0%nat = Some p → tp_yPos p = marginTop)
  ∧ (∀ (i : nat) p q, l !! i = Some p → l !! S i = Some q →
       tp_yPos q = tp_yPos p
                   + (if tp_hidden q then hideTrackOffset else trackOffset)).
Proof.
  intros Hrun. destruct (render_loop_spec _ _ _ _ Hrun)
    as (Hids & Hall & Hhead & Hnext).
  assert (∀ (i : nat) p, l !! i = Some p → tp_id p = 1 + Z.of_nat i) as Hid.
  { intros i p Hp.
    assert ((tp_id <$> l) !! i = Some (tp_id p)) as Hl
      by (by rewrite list_lookup_fmap, Hp).
    rewrite Hids in Hl. by apply lookup_seqZ in Hl as [-> _]. }
  split; [done|]. split; [done|]. split.
  - intros p Hp. rewrite (Hhead p Hp).
    rewrite bool_decide_eq_true_2 by (by rewrite (Hid 0%nat p Hp)). lia.
  - intros i p q Hp Hq. rewrite (Hnext i p q Hp Hq).
    rewrite bool_decide_eq_false_2; [done|].
    rewrite (Hid (S i) q Hq). lia.
Qed.

End Layout.

Lemma render_tracks_layout_witness :
  ∃ l,
    render_tracks 40 (hideTrack 2 example_viewer) = Some l
    ∧ tp_id <$> l = seqZ 1 (trackCount (hideTrack 2 example_viewer))
    ∧ Forall (fun p => tp_hidden p = isHidden (tp_id p) (hideTrack 2 example_viewer)
                       ∧ genomeRegions (hideTrack 2 example_viewer) !! tp_id p
                         = Some (tp_regions p)
                       ∧ head (tp_regions p) = Some (tp_first p)) l
    ∧ (∀ p, l !! 0%nat = Some p → tp_yPos p = marginTop)
    ∧ (∀ (i : nat) p q, l !! i = Some p → l !! S i = Some q →
         tp_yPos q = tp_yPos p + (if tp_hidden q then 40 else trackOffset)).
Proof.
  destruct (render_tracks 40 (hideTrack 2 example_viewer)) as [l|] eqn:Hrun;
    [|by vm_compute in Hrun].
  exists l. split; [reflexivity|].
  apply (render_tracks_layout 40 (hideTrack 2 example_viewer) l). exact Hrun.
Defined.

(** The example with genome 2 hidden, 40 pixels for a hidden track. *)
Example render_tracks_example :
  (fun l : list TrackParams =>
     map (fun p => (tp_id p, tp_yPos p, tp_hidden p, tp_regions p)) l)
    <$> render_tracks 40 (hideTrack 2 example_viewer)
  = Some [ (1, 20, false, [1]); (2, 60, true, [2; 4]); (3, 200, false, [3; 5]) ].
Proof. vm_compute. reflexivity. Qed.

(** ** The cursor over a session of events *)

Section Events.

Implicit Types (c : Cursor) (e : Event) (es : list Event) (t : Z).

Lemma place_other_keeps trackID hoverStrand xPos relXPos d c c' :
  place_other trackID hoverStrand xPos relXPos d c = Some c' →
  dom (relativeXs c) ⊆ dom (relativeXs c') ∧ dom (scales c) ⊆ dom (scales c').
Proof.
  unfold place_other. case_bool_decide; [by intros [= <-]|].
  destruct (array_get (tracks c) (lcb_idx d - 1)) as [x|]; [|done]. simpl.
  unfold line_attr. simpl.
  destruct (array_get (hoverLines c) (lcb_idx d - 1)) as [line|]; [|done].
  simpl. intros [= <-]. simpl. rewrite !dom_insert. set_solver.
Qed.

Lemma each_place_other_keeps trackID hoverStrand xPos relXPos sel c c' :
  each (place_other trackID hoverStrand xPos relXPos) sel c = Some c' →
  dom (relativeXs c) ⊆ dom (relativeXs c') ∧ dom (scales c) ⊆ dom (scales c').
Proof.
  revert c. induction sel as [|d sel IH]; intros c; simpl.
  { by intros [= <-]. }
  destruct (place_other _ _ _ _ d c) as [c1|] eqn:Hstep; [|done]. simpl.
  intros Hrun. apply place_other_keeps in Hstep as [H1 H2].
  destruct (IH c1 Hrun) as [H3 H4]. split; by etrans.
Qed.

Lemma handle_keeps e c c' :
  handle e c = Some c' →
  dom (relativeXs c) ⊆ dom (relativeXs c') ∧ dom (scales c) ⊆ dom (scales c').
Proof.
  destruct e as [|target mouseX|onLine]; simpl.
  - by intros [= <-].
  - destruct target as [ele|]; simpl; [|by intros [= <-]].
    destruct (bool_decide (tagName ele ≠ "rect") || negb (contains "region" ele)).
    { destruct (contains "cursor-line" ele || contains "hover-box" ele);
        by intros [= <-]. }
    destruct (datum ele) as [d|]; [|done]. simpl.
    destruct (array_get (tracks c) (lcb_idx d - 1)) as [x|]; [|done]. simpl.
    unfold line_attr. simpl.
    destruct (array_get (hoverLines c) (lcb_idx d - 1)) as [line|]; [|done].
    simpl. destruct (each _ _ _) as [c3|] eqn:Hrun; [|done]. simpl.
    intros [= <-]. apply each_place_other_keeps in Hrun as [H1 H2].
    simpl in *. rewrite dom_insert in H1. rewrite dom_insert in H2.
    split; set_solver.
  - intros [= <-]. by destruct onLine.
Qed.

(** X25 (offsets are never dropped).  Whatever events the cursor handles,
    a track that has an entry in [relativeXs] or in [scales] keeps having
    one: entries are written by hovers over regions and are removed by
    nothing, so a click reports, for a track, the offset of the last hover
    that reached it. *)
Theorem handle_all_keeps es c c' :
  handle_all es c = Some c' →
  dom (click_relativeXs (click c)) ⊆ dom (click_relativeXs (click c'))
  ∧ dom (click_scales (click c)) ⊆ dom (click_scales (click c')).
Proof.
  revert c. induction es as [|e es IH]; intros c; simpl.
  { by intros [= <-]. }
  destruct (handle e c) as [c1|] eqn:Hstep; [|done]. simpl. intros Hrun.
  apply handle_keeps in Hstep as [H1 H2].
  destruct (IH c1 Hrun) as [H3 H4]. simpl in *. split; by etrans.
Qed.

Lemma handle_all_keeps_witness :
  ∃ c',
    handle_all [MouseOver; MouseMove (Some (region_rect example_region)) (1503 # 10);
                MouseOut false; MouseMove (Some background) 400%Q]
               example_cursor = Some c'
    ∧ dom (click_relativeXs (click example_cursor)) ⊆ dom (click_relativeXs (click c'))
    ∧ dom (click_scales (click example_cursor)) ⊆ dom (click_scales (click c')).
Proof.
  destruct (handle_all [MouseOver;
                        MouseMove (Some (region_rect example_region)) (1503 # 10);
                        MouseOut false; MouseMove (Some background) 400%Q]
                       example_cursor) as [c'|] eqn:Hrun;
    [|by vm_compute in Hrun].
  exists c'. split; [reflexivity|].
  apply (handle_all_keeps
           [MouseOver; MouseMove (Some (region_rect example_region)) (1503 # 10);
            MouseOut false; MouseMove (Some background) 400%Q] example_cursor c').
  exact Hrun.
Defined.

Lemma new_Cursor_box (trks : list Scale) (shapes : Z → list Region) (count t : Z) :
  hoverBoxes (new_Cursor trks shapes count) !! t
  = if bool_decide (1 ≤ t ≤ count) then Some new_box else None.
Proof.
  simpl. case_bool_decide as Ht.
  - apply elem_of_list_to_map.
    + rewrite <- list_fmap_compose.
      rewrite (list_fmap_ext _ id (seqZ 1 count)) by done.
      rewrite list_fmap_id. apply NoDup_seqZ.
    + apply list_elem_of_fmap. exists t. split; [done|].
      apply elem_of_seqZ. lia.
  - apply not_elem_of_list_to_map. rewrite <- list_fmap_compose.
    rewrite (list_fmap_ext _ id (seqZ 1 count)) by done.
    rewrite list_fmap_id, elem_of_seqZ. lia.
Qed.

(** X26 (a new cursor).  The cursor that [render] builds has one line and
    one box for each of the tracks 1 to [trackCount], parked at [-11], and
    reports nothing on a click.  A hover can index track [t] exactly when
    [t] is between 1 and [trackCount] and [tracks] has a scale for it. *)
Theorem new_Cursor_fresh (trks : list Scale) (shapes : Z → list Region) (count t : Z) :
  click (new_Cursor trks shapes count) = mkClick None None None ∅ ∅
  ∧ array_get (hoverLines (new_Cursor trks shapes count)) (t - 1)
    = (if bool_decide (1 ≤ t ≤ count) then Some new_line else None)
  ∧ hoverBoxes (new_Cursor trks shapes count) !! t
    = (if bool_decide (1 ≤ t ≤ count) then Some new_box else None)
  ∧ new_line !! "x1" = Some (-11)%Q ∧ new_box !! "x" = Some (-11)%Q
  ∧ (on_track (new_Cursor trks shapes count) t
     ↔ 1 ≤ t ≤ count ∧ t ≤ Z.of_nat (length trks)).
Proof.
  split; [done|]. split.
  { simpl. unfold array_get. destruct (decide (1 ≤ t ≤ count)) as [Ht|Ht].
    - rewrite (bool_decide_eq_true_2 _ Ht), bool_decide_eq_true_2 by lia.
      apply lookup_replicate_2. lia.
    - rewrite (bool_decide_eq_false_2 _ Ht). case_bool_decide; [|done].
      apply lookup_replicate_None. lia. }
  split; [apply new_Cursor_box|]. split; [done|]. split; [done|].
  unfold on_track. rewrite !array_get_is_Some. simpl.
  rewrite length_replicate. lia.
Qed.

End Events.
